(** * OWAPI: the MasterOverwatch interface (owapi/interface.py)

    A shallow embedding of [owapi/interface.py]: the URL templates, the
    cache-aside page fetcher [get_page_body], the two document loaders
    [get_blizzard_page] and [get_user_page], the remote-update trigger
    [update_user] and the region resolver [region_helper].

    Python values are Rocq values ([str] is [string], [None]-or-value is
    [option]); a coroutine is a function from the store to an outcome, a new
    store and the events it produced, and an exception is an outcome of its
    own.  What the module gets from outside (the HTTP session, lxml, the json
    decoder and [owapi.util.with_cache]) is gathered in a [World]. *)

From Stdlib Require Import ZArith NArith String Ascii List Bool Lia.
From stdpp Require Import gmap strings list pretty.

Open Scope string_scope.
Open Scope list_scope.

#[local] Arguments String.append !s1 s2 : simpl nomatch.

(** ** Python outcomes *)

Inductive exn : Type :=
| KeyError (key : string)
| IndexError
| TypeError
| ValueError
| JSONDecodeError
| ClientError.

Inductive Result (A : Type) : Type :=
| Ret (a : A)
| Raise (e : exn).

Arguments Ret {A} a.
Arguments Raise {A} e.

Definition Rmap {A B} (f : A -> B) (r : Result A) : Result B :=
  match r with
  | Ret a => Ret (f a)
  | Raise e => Raise e
  end.

Definition raised {A} (r : Result A) : Prop := exists e, r = Raise e.

(** ** Strings: [str.replace] and [str.format] *)

Module Str.

(** [s.replace(old, new)] for a non-empty [old]: a left-to-right scan, the
    characters of a match being skipped once it has been replaced. *)
Fixpoint replace_go (old new s : string) (skip : nat) : string :=
  match s with
  | EmptyString => EmptyString
  | String c s' =>
      match skip with
      | S k => replace_go old new s' k
      | O =>
          if String.prefix old s
          then new +:+ replace_go old new s' (String.length old - 1)
          else String c (replace_go old new s' 0)
      end
  end.

(** With an empty [old] Python puts [new] around every character. *)
Fixpoint replace_empty (new s : string) : string :=
  match s with
  | EmptyString => new
  | String c s' => new +:+ String c (replace_empty new s')
  end.

Definition replace (s old new : string) : string :=
  match old with
  | EmptyString => replace_empty new s
  | _ => replace_go old new s 0
  end.

(** Character by character: what [replace] amounts to for one-character
    arguments. *)
Fixpoint subst_char (old new : ascii) (s : string) : string :=
  match s with
  | EmptyString => EmptyString
  | String c s' =>
      String (if Ascii.eqb c old then new else c) (subst_char old new s')
  end.

Fixpoint occurs (c : ascii) (s : string) : bool :=
  match s with
  | EmptyString => false
  | String d s' => Ascii.eqb d c || occurs c s'
  end.

(** Arguments of [format]: a [str] or an [int]. *)
Inductive pyval : Type :=
| PStr (s : string)
| PInt (z : Z).

Definition str (v : pyval) : string :=
  match v with
  | PStr s => s
  | PInt z => pretty z
  end.

Fixpoint kwarg (name : string) (kwargs : list (string * pyval)) : option pyval :=
  match kwargs with
  | [] => None
  | (k, v) :: rest => if String.eqb k name then Some v else kwarg name rest
  end.

(** The scanner of [format]: in running text, inside a replacement field
    (with the field name read so far), or after a closing brace met in running
    text. *)
Inductive scan : Type :=
| Text
| Field (name : string)
| Closing.

(** [template.format(args, kwargs)] for the fields the module's templates
    use: [{name}] is looked up among the keyword arguments (a [KeyError] when
    it is missing), [{}] takes the next positional argument (an [IndexError]
    when none is left), doubled braces stand for a brace.  Keyword arguments
    that no field names are ignored, and a substituted value is not scanned
    again.  Format specifications and conversions do not occur in the
    templates and are read as part of the name. *)
Fixpoint format_go (tmpl : string) (st : scan)
    (args : list pyval) (kwargs : list (string * pyval)) : Result string :=
  match tmpl with
  | EmptyString =>
      match st with
      | Text => Ret EmptyString
      | Field _ | Closing => Raise ValueError
      end
  | String c rest =>
      match st with
      | Text =>
          if Ascii.eqb c "{" then format_go rest (Field EmptyString) args kwargs
          else if Ascii.eqb c "}" then format_go rest Closing args kwargs
          else Rmap (String c) (format_go rest Text args kwargs)
      | Closing =>
          if Ascii.eqb c "}"
          then Rmap (String c) (format_go rest Text args kwargs)
          else Raise ValueError
      | Field name =>
          if Ascii.eqb c "}" then
            match name with
            | EmptyString =>
                match args with
                | v :: args' =>
                    Rmap (append (str v)) (format_go rest Text args' kwargs)
                | [] => Raise IndexError
                end
            | _ =>
                match kwarg name kwargs with
                | Some v =>
                    Rmap (append (str v)) (format_go rest Text args kwargs)
                | None => Raise (KeyError name)
                end
            end
          else if Ascii.eqb c "{" then
            match name with
            | EmptyString => Rmap (String c) (format_go rest Text args kwargs)
            | _ => Raise ValueError
            end
          else format_go rest (Field (name +:+ String c EmptyString)) args kwargs
      end
  end.

Definition format (tmpl : string) (args : list pyval)
    (kwargs : list (string * pyval)) : Result string :=
  format_go tmpl Text args kwargs.

End Str.

(** ** Constants *)

Definition B_BASE_URL : string := "https://playoverwatch.com/en-gb/".
Definition B_PAGE_URL : string := B_BASE_URL +:+ "career/pc/{region}/{btag}".

Definition MO_BASE_URL : string := "https://masteroverwatch.com/".
Definition MO_PROFILE_URL : string := MO_BASE_URL +:+ "profile/pc/".
Definition MO_PAGE_URL : string := MO_PROFILE_URL +:+ "{region}/{btag}".
Definition MO_UPDATE_URL : string := MO_PAGE_URL +:+ "/update".

(** The URL expressions of the three coroutines, as they are written in
    [get_user_page], [get_blizzard_page] and [update_user]. *)

Definition user_page_url (battletag region extra : string) : Result string :=
  match
    Str.format MO_PAGE_URL []
      [("region", Str.PStr region);
       ("btag", Str.PStr (Str.replace battletag "#" "-"))]
  with
  | Ret page =>
      Rmap (append page) (Str.format "{}" [Str.PStr extra] [])
  | Raise e => Raise e
  end.

Definition blizzard_page_url (battletag region : string) : Result string :=
  Str.format B_PAGE_URL []
    [("region", Str.PStr region);
     ("btag", Str.PStr (Str.replace battletag "#" "-"));
     ("cache_time", Str.PInt 0)].

Definition update_url (battletag reg : string) : Result string :=
  Str.format MO_UPDATE_URL []
    [("btag", Str.PStr battletag); ("region", Str.PStr reg)].

(** ** Decoded JSON

    What [json.loads] returns: [None], a [bool], a number, a [str], a [list]
    or a [dict].  A dict is kept as its items, a key being looked up from the
    front; a float is kept as the text of its literal. *)

#[warnings="-register-all"]
Inductive json : Type :=
| JNull
| JBool (b : bool)
| JInt (z : Z)
| JFloat (literal : string)
| JStr (s : string)
| JList (items : list json)
| JDict (items : list (string * json)).

Fixpoint dict_get (key : string) (items : list (string * json)) : option json :=
  match items with
  | [] => None
  | (k, v) :: rest => if String.eqb k key then Some v else dict_get key rest
  end.

(** [data[key]] for a [str] key: only a dict can be subscripted with a
    string, and a dict without the key raises [KeyError]. *)
Definition getitem (data : json) (key : string) : Result json :=
  match data with
  | JDict items =>
      match dict_get key items with
      | Some v => Ret v
      | None => Raise (KeyError key)
      end
  | _ => Raise TypeError
  end.

(** [value == s] for a [str] literal [s]. *)
Definition eq_str (value : json) (s : string) : bool :=
  match value with
  | JStr t => String.eqb t s
  | _ => false
  end.

Definition NOT_FOUND_MESSAGE : string :=
  "We couldn't find a player with that name.".

(** ** The store and the events *)

(** An entry of the cache behind [ctx]: a body and the time at which it
    expires. *)
Record CacheEntry : Type := { ce_body : string; ce_expires_at : N }.

(** The state the coroutines work on: the cache, the clock (in seconds) and
    the number of requests the HTTP session has sent so far. *)
Record Store : Type := {
  cache : gmap string CacheEntry;
  now : N;
  requests : nat
}.

(** What [session.get(url)] gives: a response, or a transport failure (which
    aiohttp raises as a [ClientError]). *)
Inductive HttpOutcome : Type :=
| Response (status : Z) (body : string)
| TransportError.

(** What a live fetch does: the log line of [_real_get_body] and the request
    itself. *)
Inductive NetEvent : Type :=
| LogGet (url : string)
| HttpGet (url : string).

Inductive Call : Type :=
| CallPageBody (url : string) (cache_time : N)
| CallBlizzardPage (battletag region : string)
| CallUpdateUser (battletag reg : string)
| CallUserPage (battletag region extra : string) (cache_time : N).

(** The events of a run: a coroutine is entered, it returns (with [ok] telling
    whether the value returned is other than [None] and [False]), a live fetch
    acts on the network, the parser is handed a content, [update_user] writes
    its log line. *)
Inductive Event : Type :=
| Enter (c : Call)
| Leave (c : Call) (ok : bool)
| Net (e : NetEvent)
| Parse (content : option string)
| LogUpdated (battletag : string) (data : json).

(** A fetch works on the store and the network only ... *)
Definition Fetch (A : Type) : Type := Store -> Result A * Store * list NetEvent.

(** ... a coroutine of the module on the store, with all the events. *)
Definition M (A : Type) : Type := Store -> Result A * Store * list Event.

Definition ret {A} (a : A) : M A := fun s => (Ret a, s, []).

Definition bind {A B} (m : M A) (f : A -> M B) : M B := fun s =>
  match m s with
  | (Ret a, s1, t1) => let '(r, s2, t2) := f a s1 in (r, s2, t1 ++ t2)
  | (Raise e, s1, t1) => (Raise e, s1, t1)
  end.

Notation "'do' x <- m ; k" := (bind m (fun x => k))
  (at level 10, x name, m at level 100, k at level 200,
   format "'[v' 'do'  x  <-  m ; '/' k ']'").

(** A pure Python expression that may raise. *)
Definition eval {A} (r : Result A) : M A := fun s => (r, s, []).

Definition emit (e : Event) : M unit := fun s => (Ret tt, s, [e]).

Definition lift {A} (f : Fetch A) : M A := fun s =>
  let '(r, s', t) := f s in (r, s', map Net t).

(** A coroutine with its entry and, when it returns, its exit recorded: an
    exception leaves no exit. *)
Definition leave {A} (c : Call) (ok : A -> bool) (r : Result A) : list Event :=
  match r with
  | Ret a => [Leave c (ok a)]
  | Raise _ => []
  end.

Definition traced {A} (c : Call) (ok : A -> bool) (m : M A) : M A := fun s =>
  let '(r, s', t) := m s in (r, s', Enter c :: t ++ leave c ok r).

Definition outcome {A} (run : Result A * Store * list Event) : Result A :=
  fst (fst run).
Definition final {A} (run : Result A * Store * list Event) : Store :=
  snd (fst run).
Definition trace {A} (run : Result A * Store * list Event) : list Event :=
  snd run.

Definition not_none {A} (v : option A) : bool :=
  match v with
  | Some _ => true
  | None => false
  end.

(** ** Loops *)

(** What the body of a [for] loop does to the loop: go on with the next item
    ([continue], or the end of the body) or leave the function with a
    value. *)
Inductive LoopCtl (R : Type) : Type :=
| Continue
| Return (r : R).

Arguments Continue {R}.
Arguments Return {R} r.

(** [for x in l: body else: orelse]. *)
Fixpoint for_else {X R} (body : X -> M (LoopCtl R)) (l : list X)
    (orelse : M R) : M R :=
  match l with
  | [] => orelse
  | x :: rest =>
      do ctl <- body x;
      match ctl with
      | Continue => for_else body rest orelse
      | Return r => ret r
      end
  end.

(** ** What the module is given *)

(** [Element] is lxml's parsed document.  [session_get n url] is the answer
    to the [n]-th request of the session, [latency n] the seconds it takes.
    [with_cache] is [owapi.util.with_cache], which is not part of
    interface.py: [get_page_body] is stated over any such function.
    [etree_HTML] is [lxml.etree.HTML] on what [_parse_page] hands it ([None]
    or a [str]), [json_decode] the decoder behind [json.loads] ([None] for a
    text that is not JSON). *)
Record World : Type := {
  Element : Type;
  session_get : nat -> string -> HttpOutcome;
  latency : nat -> N;
  with_cache :
    (string -> Fetch (option string)) -> string -> N -> Fetch (option string);
  etree_HTML : option string -> Result (option Element);
  json_decode : string -> option json
}.

Section Interface.

Context (w : World).

(** *** get_page_body *)

(** The inner coroutine of [get_page_body]: log, send the request, give
    [None] for a status other than 200 and the decoded body otherwise.  A
    transport failure is the exception [session.get] raises; nothing here
    catches it.  The response body is taken as the text it decodes to. *)
Definition _real_get_body (url : string) : Fetch (option string) := fun s =>
  let n := requests s in
  let s' :=
    {| cache := cache s; now := (now s + latency w n)%N; requests := S n |} in
  match session_get w n url with
  | TransportError => (Raise ClientError, s', [LogGet url; HttpGet url])
  | Response status body =>
      (Ret (if (status =? 200)%Z then Some body else None), s',
       [LogGet url; HttpGet url])
  end.

(** Downloads a page body through the cache; the default [cache_time] is
    300.  Opening and closing the session leaves no trace in the store. *)
Definition get_page_body (url : string) (cache_time : N) : M (option string) :=
  traced (CallPageBody url cache_time) not_none
    (lift (with_cache w _real_get_body url cache_time)).

Definition _parse_page (content : option string) : M (option (Element w)) :=
  fun s => (etree_HTML w content, s, [Parse content]).

(** *** get_user_page *)

(** The body goes to the parser as it comes back, [None] included. *)
Definition get_user_page (battletag region extra : string) (cache_time : N)
    : M (option (Element w)) :=
  traced (CallUserPage battletag region extra cache_time) not_none
    (do built_url <- eval (user_page_url battletag region extra);
     do page_body <- get_page_body built_url cache_time;
     do parsed <- _parse_page page_body;
     ret parsed).

(** *** get_blizzard_page *)

Definition get_blizzard_page (battletag region : string)
    : M (option (Element w)) :=
  traced (CallBlizzardPage battletag region) not_none
    (do built_url <- eval (blizzard_page_url battletag region);
     do page_body <- get_page_body built_url 300;
     match page_body with
     | Some _ =>
         do parsed <- _parse_page page_body;
         ret parsed
     | None => ret None
     end).

(** *** update_user *)

(** [json.loads(body)]: a [TypeError] for [None], which is no [str]; a
    [JSONDecodeError] for a text that is not JSON. *)
Definition json_loads (body : option string) : Result json :=
  match body with
  | None => Raise TypeError
  | Some text =>
      match json_decode w text with
      | Some data => Ret data
      | None => Raise JSONDecodeError
      end
  end.

(** The two nested tests of [update_user]: [true] when it returns [False] at
    once.  The message is read only when the status is ["error"]. *)
Definition player_not_found (data : json) : Result bool :=
  match getitem data "status" with
  | Raise e => Raise e
  | Ret status =>
      if eq_str status "error" then
        match getitem data "message" with
        | Raise e => Raise e
        | Ret message => Ret (eq_str message NOT_FOUND_MESSAGE)
        end
      else Ret false
  end.

(** The battletag goes into the URL as it is given. *)
Definition update_user (battletag reg : string) : M bool :=
  traced (CallUpdateUser battletag reg) id
    (do url <- eval (update_url battletag reg);
     do body <- get_page_body url 300;
     do data <- eval (json_loads body);
     do not_found <- eval (player_not_found data);
     if not_found then ret false
     else
       do _ <- emit (LogUpdated battletag data);
       ret true).

(** *** region_helper *)

Definition Resolution : Type := option (Element w) * option string.

(** One pass of the loop of [region_helper]. *)
Definition region_body (battletag extra reg : string)
    : M (LoopCtl Resolution) :=
  do blizz <- get_blizzard_page battletag reg;
  match blizz with
  | None => ret Continue
  | Some _ =>
      do updated <- update_user battletag reg;
      if negb updated then ret Continue
      else
        do page <- get_user_page battletag reg extra 300;
        ret (Return (page, Some reg))
  end.

Definition region_helper (battletag : string) (region : option string)
    (extra : string) : M Resolution :=
  let result : Resolution := (None, None) in
  let reg_l :=
    match region with
    | None => ["eu"; "us"; "kr"]
    | Some r => [r]
    end in
  for_else (region_body battletag extra) reg_l (ret result).

End Interface.

Arguments region_helper w battletag region extra : simpl never.

(** ** The cache of the specification *)

Definition live (t : N) (e : CacheEntry) : bool := (t <? ce_expires_at e)%N.

(** The body a reader sees under [url]: that of an entry which has not
    expired. *)
Definition cached (s : Store) (url : string) : option string :=
  match cache s !! url with
  | Some e => if live (now s) e then Some (ce_body e) else None
  | None => None
  end.

Definition store_body (url body : string) (ttl : N) (s : Store) : Store :=
  {| cache :=
       <[url := {| ce_body := body; ce_expires_at := (now s + ttl)%N |}]>
         (cache s);
     now := now s;
     requests := requests s |}.

(** Modelled from the spec: [owapi.util.with_cache], which interface.py
    imports and which is not among the sources.  Section 4.1: look the URL up
    in the cache store; a live entry is returned without any network call;
    otherwise the live fetch is made, a body is stored under the URL with
    expiry now + ttl and returned, and a fetch that gives no body (a status
    other than 200, or a transport failure) gives absent and stores
    nothing.  Entries hold bodies only: a failed fetch is never written. *)
Definition spec_with_cache (func : string -> Fetch (option string))
    (url : string) (expires : N) : Fetch (option string) := fun s =>
  match cached s url with
  | Some body => (Ret (Some body), s, [])
  | None =>
      match func url s with
      | (Ret (Some body), s1, t) =>
          (Ret (Some body), store_body url body expires s1, t)
      | (Ret None, s1, t) => (Ret None, s1, t)
      | (Raise _, s1, t) => (Ret None, s1, t)
      end
  end.

(** Time passing between two calls. *)
Definition advance (d : N) (s : Store) : Store :=
  {| cache := cache s; now := (now s + d)%N; requests := requests s |}.

(** ** Reading a trace *)

(** The regions probed, updated and fetched in full, in the order of the
    calls; the contents handed to the parser; the URLs requested from the
    network. *)
Definition probes (tr : list Event) : list string :=
  omap (fun e => match e with
                 | Enter (CallBlizzardPage _ reg) => Some reg
                 | _ => None
                 end) tr.

Definition updates (tr : list Event) : list string :=
  omap (fun e => match e with
                 | Enter (CallUpdateUser _ reg) => Some reg
                 | _ => None
                 end) tr.

Definition full_fetches (tr : list Event) : list string :=
  omap (fun e => match e with
                 | Enter (CallUserPage _ reg _ _) => Some reg
                 | _ => None
                 end) tr.

Definition parses (tr : list Event) : list (option string) :=
  omap (fun e => match e with
                 | Parse content => Some content
                 | _ => None
                 end) tr.

Definition http_gets (tr : list Event) : list string :=
  omap (fun e => match e with
                 | Net (HttpGet url) => Some url
                 | _ => None
                 end) tr.

(** The calls of [get_page_body], each with its URL and its cache time. *)
Definition fetches (tr : list Event) : list (string * N) :=
  omap (fun e => match e with
                 | Enter (CallPageBody url cache_time) => Some (url, cache_time)
                 | _ => None
                 end) tr.

(** The existence probe of a region came back absent; its update step
    returned [False]; either of them, so that the loop went on; both steps
    went through. *)
Definition probe_absent (battletag reg : string) (tr : list Event) : Prop :=
  In (Leave (CallBlizzardPage battletag reg) false) tr.

Definition update_not_found (battletag reg : string) (tr : list Event) : Prop :=
  In (Leave (CallUpdateUser battletag reg) false) tr.

Definition skipped (battletag reg : string) (tr : list Event) : Prop :=
  probe_absent battletag reg tr \/ update_not_found battletag reg tr.

Definition update_accepted (battletag reg : string) (tr : list Event) : Prop :=
  In (Leave (CallUpdateUser battletag reg) true) tr.

Definition passed (battletag reg : string) (tr : list Event) : Prop :=
  In (Leave (CallBlizzardPage battletag reg) true) tr
  /\ In (Leave (CallUpdateUser battletag reg) true) tr.

(** The steps of the resolver in a trace: the entries and exits of the three
    coroutines [region_helper] calls. *)
Definition is_step (e : Event) : bool :=
  match e with
  | Enter (CallPageBody _ _) | Leave (CallPageBody _ _) _ => false
  | Enter _ | Leave _ _ => true
  | _ => false
  end.

Definition steps (tr : list Event) : list Event := List.filter is_step tr.

(** A coroutine is quiet when it takes no step of the resolver. *)
Definition quiet {A} (m : M A) : Prop := forall s, steps (trace (m s)) = [].

(** The steps of one pass of the loop over a region, and what the pass gives:
    the pass ends where a coroutine raises, at the [continue] after an absent
    probe or a refused update, or at the [return]. *)
Inductive iteration (w : World) (battletag extra reg : string)
    : list Event -> Result (LoopCtl (Resolution w)) -> Prop :=
| it_probe_raised e :
    iteration w battletag extra reg
      [Enter (CallBlizzardPage battletag reg)]
      (Raise e)
| it_probe_absent :
    iteration w battletag extra reg
      [Enter (CallBlizzardPage battletag reg);
       Leave (CallBlizzardPage battletag reg) false]
      (Ret Continue)
| it_update_raised e :
    iteration w battletag extra reg
      [Enter (CallBlizzardPage battletag reg);
       Leave (CallBlizzardPage battletag reg) true;
       Enter (CallUpdateUser battletag reg)]
      (Raise e)
| it_update_not_found :
    iteration w battletag extra reg
      [Enter (CallBlizzardPage battletag reg);
       Leave (CallBlizzardPage battletag reg) true;
       Enter (CallUpdateUser battletag reg);
       Leave (CallUpdateUser battletag reg) false]
      (Ret Continue)
| it_page_raised e :
    iteration w battletag extra reg
      [Enter (CallBlizzardPage battletag reg);
       Leave (CallBlizzardPage battletag reg) true;
       Enter (CallUpdateUser battletag reg);
       Leave (CallUpdateUser battletag reg) true;
       Enter (CallUserPage battletag reg extra 300)]
      (Raise e)
| it_returned page :
    iteration w battletag extra reg
      [Enter (CallBlizzardPage battletag reg);
       Leave (CallBlizzardPage battletag reg) true;
       Enter (CallUpdateUser battletag reg);
       Leave (CallUpdateUser battletag reg) true;
       Enter (CallUserPage battletag reg extra 300);
       Leave (CallUserPage battletag reg extra 300) (not_none page)]
      (Ret (Return (page, Some reg))).

(** The steps of the whole loop over a list of regions, and its result. *)
Inductive resolution (w : World) (battletag extra : string)
    : list string -> list Event -> Result (Resolution w) -> Prop :=
| res_exhausted :
    resolution w battletag extra [] [] (Ret (None, None))
| res_continue reg rest t t' r :
    iteration w battletag extra reg t (Ret Continue) ->
    resolution w battletag extra rest t' r ->
    resolution w battletag extra (reg :: rest) (t ++ t') r
| res_return reg rest t v :
    iteration w battletag extra reg t (Ret (Return v)) ->
    resolution w battletag extra (reg :: rest) t (Ret v)
| res_raise reg rest t e :
    iteration w battletag extra reg t (Raise e) ->
    resolution w battletag extra (reg :: rest) t (Raise e).

(** ** Worlds to run the module in *)

(** lxml refuses what is neither [str] nor [bytes] with a [ValueError]
    ("can only parse strings"); the document of a text is here the text. *)
Definition lxml_HTML (content : option string) : Result (option string) :=
  match content with
  | Some text => Ret (Some text)
  | None => Raise ValueError
  end.

Fixpoint assoc {V} (key : string) (table : list (string * V)) : option V :=
  match table with
  | [] => None
  | (k, v) :: rest => if String.eqb k key then Some v else assoc key rest
  end.

(** A site answers the URLs of its table and has a 404 for any other. *)
Definition serve (pages : list (string * HttpOutcome)) (url : string)
    : HttpOutcome :=
  match assoc url pages with
  | Some answer => answer
  | None => Response 404 ""
  end.

(** The world of a site: every request takes a second, the cache is that of
    the specification, the parser behaves as lxml does, and the decoder knows
    the replies listed (any other text is not JSON to it). *)
Definition site (pages : list (string * HttpOutcome))
    (replies : list (string * json)) : World :=
  {| Element := string;
     session_get := fun _ url => serve pages url;
     latency := fun _ => 1%N;
     with_cache := spec_with_cache;
     etree_HTML := lxml_HTML;
     json_decode := fun text => assoc text replies |}.

Definition fresh_store : Store := {| cache := ∅; now := 0; requests := 0 |}.

Definition dquote : string := String "034" EmptyString.

Definition quoted (s : string) : string := dquote +:+ s +:+ dquote.

(** The text of a reply of the update endpoint with a status and a message,
    and what it decodes to. *)
Definition reply_text (status message : string) : string :=
  "{" +:+ quoted "status" +:+ ":" +:+ quoted status +:+ ","
      +:+ quoted "message" +:+ ":" +:+ quoted message +:+ "}".

Definition reply_data (status message : string) : json :=
  JDict [("status", JStr status); ("message", JStr message)].

Definition replies : list (string * json) :=
  [(reply_text "success" "Profile updated.",
    reply_data "success" "Profile updated.");
   (reply_text "error" NOT_FOUND_MESSAGE, reply_data "error" NOT_FOUND_MESSAGE);
   (reply_text "error" "rate limited", reply_data "error" "rate limited");
   ("{}", JDict []);
   ("[]", JList [])].

Definition PROBE_EU : string :=
  "https://playoverwatch.com/en-gb/career/pc/eu/Foo-1234".
Definition PROFILE_EU : string :=
  "https://masteroverwatch.com/profile/pc/eu/Foo-1234".
Definition UPDATE_EU : string :=
  "https://masteroverwatch.com/profile/pc/eu/Foo#1234/update".

(** The player is known in eu and the update endpoint answers [reply]. *)
Definition eu_pages (reply : string) : list (string * HttpOutcome) :=
  [(PROBE_EU, Response 200 "<html>career</html>");
   (UPDATE_EU, Response 200 reply)].

(** Everything is there for Foo#1234 in eu. *)
Definition world_found : World :=
  site (eu_pages (reply_text "success" "Profile updated.")
        ++ [(PROFILE_EU, Response 200 "<html>profile</html>")])
       replies.

(** The same, but the profile page is not served (a 404). *)
Definition world_profile_down : World :=
  site (eu_pages (reply_text "success" "Profile updated.")) replies.

(** The update endpoint answers that there is no such player ... *)
Definition world_not_found : World :=
  site (eu_pages (reply_text "error" NOT_FOUND_MESSAGE)) replies.

(** ... that it is busy (the profile page is served) ... *)
Definition world_rate_limited : World :=
  site (eu_pages (reply_text "error" "rate limited")
        ++ [(PROFILE_EU, Response 200 "<html>profile</html>")])
       replies.

(** ... with an empty object ... *)
Definition world_empty_reply : World := site (eu_pages "{}") replies.

(** ... with text that is not JSON ... *)
Definition world_garbled_reply : World :=
  site (eu_pages "<html>Bad gateway</html>") replies.

(** ... or not at all. *)
Definition world_update_down : World :=
  site [(PROBE_EU, Response 200 "<html>career</html>");
        (UPDATE_EU, TransportError)] replies.

(** No page of the player anywhere. *)
Definition world_nowhere : World := site [] replies.

(** ** More to read from a run *)

(** The regions [region_helper] goes through. *)
Definition candidates (region : option string) : list string :=
  match region with
  | None => ["eu"; "us"; "kr"]
  | Some r => [r]
  end.

(** The log lines of [update_user]. *)
Definition logged (tr : list Event) : list (string * json) :=
  omap (fun e => match e with
                 | LogUpdated battletag data => Some (battletag, data)
                 | _ => None
                 end) tr.

(** The three URL expressions of a pass over a region, in the order of the
    calls. *)
Definition pass_urls (battletag extra reg : string) : list (Result string) :=
  [blizzard_page_url battletag reg;
   update_url battletag reg;
   user_page_url battletag reg extra].

(** A fetch of the pass over a region: one of its three URLs, with the cache
    time 300. *)
Definition pass_fetch (battletag extra reg : string) (f : string * N) : Prop :=
  f.2 = 300%N /\ In (Ret f.1) (pass_urls battletag extra reg).

(** * Properties *)

(** ** Strings and URLs *)

Lemma append_empty_r (s : string) : s +:+ "" = s.
Proof. induction s as [|c s IH]; simpl; [reflexivity | now rewrite IH]. Qed.

Lemma replace_hash (s : string) :
  Str.replace s "#" "-" = Str.subst_char "#" "-" s.
Proof.
  unfold Str.replace.
  induction s as [|c s IH]; [reflexivity |].
  change (Str.replace_go "#" "-" (String c s) 0)
    with (if (if ascii_dec "#" c then String.prefix "" s else false)
          then "-" +:+ Str.replace_go "#" "-" s 0
          else String c (Str.replace_go "#" "-" s 0)).
  rewrite IH. cbn [Str.subst_char].
  destruct (ascii_dec "#" c) as [<-|Hc].
  - now destruct s.
  - destruct (Ascii.eqb_spec c "#") as [->|_]; [contradiction | reflexivity].
Qed.

Lemma subst_char_removes (old new : ascii) (s : string) :
  old <> new -> Str.occurs old (Str.subst_char old new s) = false.
Proof.
  intros Hne. induction s as [|c s IH]; simpl; [reflexivity |].
  rewrite IH, orb_false_r.
  destruct (Ascii.eqb_spec c old) as [->|Hc].
  - apply Ascii.eqb_neq. congruence.
  - now apply Ascii.eqb_neq.
Qed.

Lemma append_assoc (a b c : string) : (a +:+ b) +:+ c = a +:+ (b +:+ c).
Proof. induction a as [|x a IH]; simpl; [reflexivity | now rewrite IH]. Qed.

Lemma user_page_url_eq (battletag region extra : string) :
  user_page_url battletag region extra
  = Ret ("https://masteroverwatch.com/profile/pc/" +:+ region +:+ "/"
         +:+ Str.subst_char "#" "-" battletag +:+ extra).
Proof.
  unfold user_page_url. rewrite replace_hash. cbn.
  now rewrite !append_empty_r, append_assoc.
Qed.

Lemma blizzard_page_url_eq (battletag region : string) :
  blizzard_page_url battletag region
  = Ret ("https://playoverwatch.com/en-gb/career/pc/" +:+ region +:+ "/"
         +:+ Str.subst_char "#" "-" battletag).
Proof.
  unfold blizzard_page_url. rewrite replace_hash. cbn.
  now rewrite !append_empty_r.
Qed.

Lemma update_url_eq (battletag reg : string) :
  update_url battletag reg
  = Ret ("https://masteroverwatch.com/profile/pc/" +:+ reg +:+ "/"
         +:+ battletag +:+ "/update").
Proof. reflexivity. Qed.

Example format_user_page :
  user_page_url "Foo#1234" "eu" "/heroes"
  = Ret "https://masteroverwatch.com/profile/pc/eu/Foo-1234/heroes".
Proof. reflexivity. Qed.

Example format_missing_key :
  Str.format MO_PAGE_URL [] [("region", Str.PStr "eu")] = Raise (KeyError "btag").
Proof. reflexivity. Qed.

Example format_braces : Str.format "{{{}}}" [Str.PStr "x"] [] = Ret "{x}".
Proof. reflexivity. Qed.

Example replace_substring : Str.replace "a--b---c" "--" "+" = "a+b+-c".
Proof. reflexivity. Qed.

Example replace_around : Str.replace "ab" "" "-" = "-a-b-".
Proof. reflexivity. Qed.

(** ** Runs and their traces *)

Lemma traced_run {A} (c : Call) (ok : A -> bool) (m : M A) (s : Store) :
  traced c ok m s
  = (outcome (m s), final (m s),
     Enter c :: trace (m s) ++ leave c ok (outcome (m s))).
Proof. unfold traced. now destruct (m s) as [[r s'] t]. Qed.

Lemma bind_run {A B} (m : M A) (f : A -> M B) (s : Store) :
  bind m f s
  = match outcome (m s) with
    | Ret a =>
        (outcome (f a (final (m s))), final (f a (final (m s))),
         trace (m s) ++ trace (f a (final (m s))))
    | Raise e => (Raise e, final (m s), trace (m s))
    end.
Proof.
  unfold bind. destruct (m s) as [[[a|e] s1] t1]; cbn; [|reflexivity].
  now destruct (f a s1) as [[r s2] t2].
Qed.

Lemma steps_app (t1 t2 : list Event) : steps (t1 ++ t2) = steps t1 ++ steps t2.
Proof. apply List.filter_app. Qed.

Lemma steps_net (t : list NetEvent) : steps (map Net t) = [].
Proof. induction t as [|e t IH]; [reflexivity | exact IH]. Qed.

Lemma quiet_ret {A} (a : A) : quiet (ret a).
Proof. now intros s. Qed.

Lemma quiet_eval {A} (r : Result A) : quiet (eval r).
Proof. now intros s. Qed.

Lemma quiet_log (battletag : string) (data : json) :
  quiet (emit (LogUpdated battletag data)).
Proof. now intros s. Qed.

Lemma quiet_bind {A B} (m : M A) (f : A -> M B) :
  quiet m -> (forall a, quiet (f a)) -> quiet (bind m f).
Proof.
  intros Hm Hf s. rewrite bind_run.
  destruct (outcome (m s)) as [a|e]; cbn.
  - now rewrite steps_app, Hm, Hf.
  - apply Hm.
Qed.

Create HintDb quiet.

#[local] Hint Resolve quiet_ret quiet_eval quiet_log : quiet.

Section Runs.

Context (w : World).

Lemma quiet_get_page_body (url : string) (cache_time : N) :
  quiet (get_page_body w url cache_time).
Proof.
  intros s. unfold get_page_body, lift. rewrite traced_run.
  destruct (with_cache w (_real_get_body w) url cache_time s) as [[r s'] t].
  cbn. rewrite steps_app, steps_net. now destruct r.
Qed.

Lemma quiet_parse_page (content : option string) : quiet (_parse_page w content).
Proof. now intros s. Qed.

#[local] Hint Resolve quiet_get_page_body quiet_parse_page : quiet.

(** The steps of a call of one of the three coroutines: its entry, the steps
    of its body and, unless it raised, its exit. *)
Lemma steps_traced {A} (c : Call) (ok : A -> bool) (m : M A) (s : Store) :
  is_step (Enter c) = true ->
  quiet m ->
  steps (trace (traced c ok m s)) = Enter c :: leave c ok (outcome (m s)).
Proof.
  intros Hc Hm. rewrite traced_run. cbn [trace snd steps List.filter].
  rewrite Hc. f_equal. fold (steps (trace (m s) ++ leave c ok (outcome (m s)))).
  rewrite steps_app, Hm. destruct (outcome (m s)) as [a|e]; [|reflexivity].
  cbn. destruct c; try discriminate Hc; reflexivity.
Qed.

Lemma outcome_traced {A} (c : Call) (ok : A -> bool) (m : M A) (s : Store) :
  outcome (traced c ok m s) = outcome (m s).
Proof. now rewrite traced_run. Qed.

Lemma steps_get_blizzard_page (battletag reg : string) (s : Store) :
  steps (trace (get_blizzard_page w battletag reg s))
  = Enter (CallBlizzardPage battletag reg)
    :: leave (CallBlizzardPage battletag reg) not_none
         (outcome (get_blizzard_page w battletag reg s)).
Proof.
  unfold get_blizzard_page. rewrite outcome_traced.
  apply steps_traced; [reflexivity |].
  repeat (apply quiet_bind; [auto with quiet | intros]).
  destruct a0; repeat (apply quiet_bind; [auto with quiet | intros]);
    auto with quiet.
Qed.

Lemma steps_update_user (battletag reg : string) (s : Store) :
  steps (trace (update_user w battletag reg s))
  = Enter (CallUpdateUser battletag reg)
    :: leave (CallUpdateUser battletag reg) id
         (outcome (update_user w battletag reg s)).
Proof.
  unfold update_user. rewrite outcome_traced.
  apply steps_traced; [reflexivity |].
  repeat (apply quiet_bind; [auto with quiet | intros]).
  destruct a2; repeat (apply quiet_bind; [auto with quiet | intros]);
    auto with quiet.
Qed.

Lemma steps_get_user_page (battletag reg extra : string) (cache_time : N)
    (s : Store) :
  steps (trace (get_user_page w battletag reg extra cache_time s))
  = Enter (CallUserPage battletag reg extra cache_time)
    :: leave (CallUserPage battletag reg extra cache_time) not_none
         (outcome (get_user_page w battletag reg extra cache_time s)).
Proof.
  unfold get_user_page. rewrite outcome_traced.
  apply steps_traced; [reflexivity |].
  repeat (apply quiet_bind; [auto with quiet | intros]); auto with quiet.
Qed.

Lemma region_body_iteration (battletag extra reg : string) (s : Store) :
  iteration w battletag extra reg
    (steps (trace (region_body w battletag extra reg s)))
    (outcome (region_body w battletag extra reg s)).
Proof.
  unfold region_body. rewrite bind_run.
  pose proof (steps_get_blizzard_page battletag reg s) as HP.
  destruct (outcome (get_blizzard_page w battletag reg s)) as [[d|]|e];
    cbn [leave not_none] in HP; cbn [outcome trace fst snd].
  - rewrite bind_run.
    set (s1 := final (get_blizzard_page w battletag reg s)) in *.
    pose proof (steps_update_user battletag reg s1) as HU.
    destruct (outcome (update_user w battletag reg s1)) as [[|]|e];
      cbn [leave id negb] in HU; cbn [outcome trace fst snd negb].
    + rewrite bind_run.
      set (s2 := final (update_user w battletag reg s1)) in *.
      pose proof (steps_get_user_page battletag reg extra 300 s2) as HG.
      destruct (outcome (get_user_page w battletag reg extra 300 s2))
        as [page|e]; cbn [leave] in HG; cbn [outcome trace fst snd ret].
      * rewrite !steps_app, HP, HU, HG. cbn. constructor.
      * rewrite !steps_app, HP, HU, HG. cbn. constructor.
    + rewrite !steps_app, HP, HU. cbn. constructor.
    + rewrite !steps_app, HP, HU. cbn. constructor.
  - rewrite !steps_app, HP. cbn. constructor.
  - rewrite HP. constructor.
Qed.

Lemma for_else_resolution (battletag extra : string) (l : list string)
    (s : Store) :
  let run := for_else (region_body w battletag extra) l (ret (None, None)) s in
  resolution w battletag extra l (steps (trace run)) (outcome run).
Proof.
  cbn zeta. revert s. induction l as [|reg rest IH]; intros s.
  - constructor.
  - cbn [for_else]. rewrite bind_run.
    pose proof (region_body_iteration battletag extra reg s) as Hit.
    destruct (outcome (region_body w battletag extra reg s)) as [[|v]|e];
      cbn [outcome trace fst snd ret].
    + rewrite steps_app. eapply res_continue; [exact Hit | apply IH].
    + rewrite steps_app. cbn. rewrite app_nil_r. now apply res_return.
    + now apply res_raise.
Qed.

End Runs.

(** ** Reading the steps *)

Lemma probes_steps (tr : list Event) : probes (steps tr) = probes tr.
Proof.
  unfold probes, steps. induction tr as [|e tr IH]; [reflexivity |].
  destruct e as [[]|[]| | |]; cbn; rewrite ?IH; reflexivity.
Qed.

Lemma updates_steps (tr : list Event) : updates (steps tr) = updates tr.
Proof.
  unfold updates, steps. induction tr as [|e tr IH]; [reflexivity |].
  destruct e as [[]|[]| | |]; cbn; rewrite ?IH; reflexivity.
Qed.

Lemma full_fetches_steps (tr : list Event) :
  full_fetches (steps tr) = full_fetches tr.
Proof.
  unfold full_fetches, steps. induction tr as [|e tr IH]; [reflexivity |].
  destruct e as [[]|[]| | |]; cbn; rewrite ?IH; reflexivity.
Qed.

Lemma in_steps (e : Event) (tr : list Event) :
  is_step e = true -> In e (steps tr) <-> In e tr.
Proof.
  intros He. unfold steps. rewrite List.filter_In. tauto.
Qed.

Lemma probe_absent_steps (battletag reg : string) (tr : list Event) :
  probe_absent battletag reg (steps tr) <-> probe_absent battletag reg tr.
Proof. now apply in_steps. Qed.

Lemma update_not_found_steps (battletag reg : string) (tr : list Event) :
  update_not_found battletag reg (steps tr) <-> update_not_found battletag reg tr.
Proof. now apply in_steps. Qed.

Lemma skipped_steps (battletag reg : string) (tr : list Event) :
  skipped battletag reg (steps tr) <-> skipped battletag reg tr.
Proof.
  unfold skipped. now rewrite probe_absent_steps, update_not_found_steps.
Qed.

Lemma passed_steps (battletag reg : string) (tr : list Event) :
  passed battletag reg (steps tr) <-> passed battletag reg tr.
Proof. unfold passed. now rewrite !in_steps. Qed.

(** Taking a run of the loop apart, pass by pass. *)
Ltac passes :=
  repeat match goal with
         | H : resolution _ _ _ _ _ _ |- _ => inversion H; subst; clear H
         | H : iteration _ _ _ _ _ _ |- _ => inversion H; subst; clear H
         end.

(** Membership in the steps of a pass, read off event by event. *)
Ltac events :=
  unfold skipped, passed, probe_absent, update_not_found in *; cbn in *;
  intuition (try discriminate);
  repeat match goal with
         | H : Leave _ _ = Leave _ _ |- _ => injection H as ?; subst
         | H : Enter _ = Enter _ |- _ => injection H as ?; subst
         | H : Some _ = Some _ |- _ => injection H as ?; subst
         end;
  try discriminate; try congruence; auto.

Lemma default_resolution (w : World) (battletag extra : string)
    (st : list Event) (r : Result (Resolution w)) :
  resolution w battletag extra ["eu"; "us"; "kr"] st r ->
  (probes st = ["eu"] \/ probes st = ["eu"; "us"]
   \/ probes st = ["eu"; "us"; "kr"])
  /\ (forall reg, passed battletag reg st -> last (probes st) = Some reg)
  /\ (forall reg, In reg (probes st) -> last (probes st) <> Some reg ->
                  skipped battletag reg st)
  /\ (forall reg, last (probes st) = Some reg -> skipped battletag reg st ->
                  reg = "kr")
  /\ (forall v, r = Ret v ->
        (exists reg, last (probes st) = Some reg /\ passed battletag reg st)
        \/ (v = (None, None)
            /\ forall reg, In reg ["eu"; "us"; "kr"] ->
                           skipped battletag reg st)).
Proof.
  intros H. passes.
  all: repeat split.
  all: try (cbn; tauto).
  all: try (intros reg; events; fail).
  all: intros v Hv; try discriminate Hv.
  all: try (right; split; [congruence | intros reg; events]; fail).
  all: left; eexists; events.
Qed.

Lemma explicit_resolution (w : World) (battletag extra region : string)
    (st : list Event) (r : Result (Resolution w)) :
  resolution w battletag extra [region] st r -> probes st = [region].
Proof. intros H. passes; reflexivity. Qed.

(** The cases of an event being among the steps worked out: the steps that
    cannot be the event are dropped one by one. *)
Ltac in_cases H :=
  cbn [In app] in H;
  repeat match type of H with
         | _ \/ _ =>
             destruct H as [H|H];
             [first [discriminate H | injection H as ?; subst] |]
         | False => destruct H
         end.

Ltac skip_cases H :=
  unfold skipped, probe_absent, update_not_found in H;
  destruct H as [H|H]; in_cases H.

Lemma exhausted_resolution (w : World) (battletag extra : string)
    (st : list Event) (r : Result (Resolution w)) :
  resolution w battletag extra ["eu"; "us"; "kr"] st r ->
  (forall reg, In reg ["eu"; "us"; "kr"] -> skipped battletag reg st) ->
  r = Ret (None, None)
  /\ ((forall reg, In reg ["eu"; "us"; "kr"] -> probe_absent battletag reg st) ->
      probes st = ["eu"; "us"; "kr"] /\ updates st = []).
Proof.
  intros H Hall.
  pose proof (Hall "eu" ltac:(cbn; tauto)) as Heu.
  pose proof (Hall "us" ltac:(cbn; tauto)) as Hus.
  pose proof (Hall "kr" ltac:(cbn; tauto)) as Hkr.
  clear Hall. passes.
  all: skip_cases Heu.
  all: skip_cases Hus.
  all: skip_cases Hkr.
  all: split; [reflexivity |].
  all: intros Habs.
  all: pose proof (Habs "eu" ltac:(cbn; tauto)) as Aeu.
  all: pose proof (Habs "us" ltac:(cbn; tauto)) as Aus.
  all: pose proof (Habs "kr" ltac:(cbn; tauto)) as Akr.
  all: clear Habs; unfold probe_absent in Aeu, Aus, Akr.
  all: in_cases Aeu.
  all: in_cases Aus.
  all: in_cases Akr.
  all: split; reflexivity.
Qed.

Lemma not_found_resolution (w : World) (battletag extra : string)
    (l : list string) (st : list Event) (r : Result (Resolution w)) (reg : string) :
  l = ["eu"; "us"; "kr"] \/ (exists region, l = [region]) ->
  resolution w battletag extra l st r ->
  (update_not_found battletag reg st -> ~ In reg (full_fetches st))
  /\ (In (Leave (CallUpdateUser battletag reg) true) st ->
      In (Enter (CallUserPage battletag reg extra 300)) st).
Proof.
  intros [->|[region ->]] H; passes.
  all: split; intros; events.
Qed.

(** ** The fetcher seen from its callers *)

Lemma parses_app (t1 t2 : list Event) : parses (t1 ++ t2) = parses t1 ++ parses t2.
Proof. apply omap_app. Qed.

Lemma fetches_app (t1 t2 : list Event) :
  fetches (t1 ++ t2) = fetches t1 ++ fetches t2.
Proof. apply omap_app. Qed.

Lemma http_gets_app (t1 t2 : list Event) :
  http_gets (t1 ++ t2) = http_gets t1 ++ http_gets t2.
Proof. apply omap_app. Qed.

Lemma parses_net (t : list NetEvent) : parses (map Net t) = [].
Proof. induction t as [|e t IH]; [reflexivity | exact IH]. Qed.

Lemma fetches_net (t : list NetEvent) : fetches (map Net t) = [].
Proof. induction t as [|e t IH]; [reflexivity | exact IH]. Qed.

Lemma parses_leave {A} (c : Call) (ok : A -> bool) (r : Result A) :
  parses (leave c ok r) = [].
Proof. now destruct r. Qed.

Lemma fetches_leave {A} (c : Call) (ok : A -> bool) (r : Result A) :
  fetches (leave c ok r) = [].
Proof. now destruct r. Qed.

Lemma http_gets_leave {A} (c : Call) (ok : A -> bool) (r : Result A) :
  http_gets (leave c ok r) = [].
Proof. now destruct r. Qed.

Section Fetcher.

Context (w : World).

Lemma get_page_body_run (url : string) (cache_time : N) (s : Store) :
  get_page_body w url cache_time s
  = let '(r, s', t) := with_cache w (_real_get_body w) url cache_time s in
    (r, s', Enter (CallPageBody url cache_time)
            :: map Net t ++ leave (CallPageBody url cache_time) not_none r).
Proof.
  unfold get_page_body, traced, lift.
  now destruct (with_cache w (_real_get_body w) url cache_time s) as [[r s'] t].
Qed.

Lemma parses_get_page_body (url : string) (cache_time : N) (s : Store) :
  parses (trace (get_page_body w url cache_time s)) = [].
Proof.
  rewrite get_page_body_run.
  destruct (with_cache w (_real_get_body w) url cache_time s) as [[r s'] t].
  cbn [trace snd]. change (parses (Enter ?c :: ?l)) with (parses l).
  now rewrite parses_app, parses_net, parses_leave.
Qed.

Lemma fetches_get_page_body (url : string) (cache_time : N) (s : Store) :
  fetches (trace (get_page_body w url cache_time s)) = [(url, cache_time)].
Proof.
  rewrite get_page_body_run.
  destruct (with_cache w (_real_get_body w) url cache_time s) as [[r s'] t].
  cbn [trace snd].
  change (fetches (Enter (CallPageBody url cache_time) :: ?l))
    with ((url, cache_time) :: fetches l).
  now rewrite fetches_app, fetches_net, fetches_leave.
Qed.

(** The runs of the three coroutines, in terms of the fetch they make. *)

Lemma get_blizzard_page_run (battletag reg url : string) (s : Store) :
  blizzard_page_url battletag reg = Ret url ->
  let fetch := get_page_body w url 300 s in
  let c := CallBlizzardPage battletag reg in
  get_blizzard_page w battletag reg s
  = match outcome fetch with
    | Ret (Some body) =>
        (etree_HTML w (Some body), final fetch,
         Enter c :: (trace fetch ++ [Parse (Some body)])
                 ++ leave c not_none (etree_HTML w (Some body)))
    | Ret None => (Ret None, final fetch, Enter c :: trace fetch ++ [Leave c false])
    | Raise e => (Raise e, final fetch, Enter c :: trace fetch)
    end.
Proof.
  intros Hurl. cbn zeta. unfold get_blizzard_page, traced, bind, eval.
  rewrite Hurl.
  destruct (get_page_body w url 300 s) as [[[[body|]|e] s1] t1];
    cbn; rewrite ?app_nil_r; try reflexivity.
  destruct (etree_HTML w (Some body)); cbn; now rewrite ?app_nil_r.
Qed.

Lemma get_user_page_run (battletag reg extra url : string) (cache_time : N)
    (s : Store) :
  user_page_url battletag reg extra = Ret url ->
  let fetch := get_page_body w url cache_time s in
  let c := CallUserPage battletag reg extra cache_time in
  get_user_page w battletag reg extra cache_time s
  = match outcome fetch with
    | Ret body =>
        (etree_HTML w body, final fetch,
         Enter c :: (trace fetch ++ [Parse body])
                 ++ leave c not_none (etree_HTML w body))
    | Raise e => (Raise e, final fetch, Enter c :: trace fetch)
    end.
Proof.
  intros Hurl. cbn zeta. unfold get_user_page, traced, bind, eval.
  rewrite Hurl.
  destruct (get_page_body w url cache_time s) as [[[body|e] s1] t1];
    cbn; rewrite ?app_nil_r; try reflexivity.
  destruct (etree_HTML w body); cbn; now rewrite ?app_nil_r.
Qed.

Lemma update_user_outcome (battletag reg url : string) (s : Store) :
  update_url battletag reg = Ret url ->
  outcome (update_user w battletag reg s)
  = match outcome (get_page_body w url 300 s) with
    | Ret body =>
        match json_loads w body with
        | Ret data => Rmap negb (player_not_found data)
        | Raise e => Raise e
        end
    | Raise e => Raise e
    end.
Proof.
  intros Hurl. unfold update_user, traced, bind, eval, emit, ret.
  rewrite Hurl.
  destruct (get_page_body w url 300 s) as [[[body|e] s1] t1]; cbn;
    [|reflexivity].
  destruct (json_loads w body) as [data|e]; cbn; [|reflexivity].
  now destruct (player_not_found data) as [[|]|e].
Qed.

End Fetcher.

(** ** The URLs that are fetched *)

Lemma fetches_update_user (w : World) (battletag reg url : string) (s : Store) :
  update_url battletag reg = Ret url ->
  fetches (trace (update_user w battletag reg s)) = [(url, 300%N)].
Proof.
  intros Hurl. unfold update_user, traced, bind, eval, emit, ret.
  rewrite Hurl.
  pose proof (fetches_get_page_body w url 300 s) as Hf.
  destruct (get_page_body w url 300 s) as [[[body|e] s1] t1];
    cbn -[fetches] in Hf |- *.
  - destruct (json_loads w body) as [data|e]; cbn -[fetches];
      [destruct (player_not_found data) as [[|]|e]; cbn -[fetches] |];
      change (fetches (Enter (CallUpdateUser battletag reg) :: ?l))
        with (fetches l);
      rewrite ?fetches_app, Hf; reflexivity.
  - change (fetches (Enter (CallUpdateUser battletag reg) :: ?l))
      with (fetches l).
    now rewrite app_nil_r.
Qed.

(** C1 (the code departs from the claim): the full profile page and the
    existence-check page are fetched under the battletag with every [#] turned
    into [-], but [update_user] puts the battletag into its URL as it is: for
    Foo#1234 in eu it fetches .../profile/pc/eu/Foo#1234/update, and the path
    segment Foo-1234 is not in it. *)
Theorem update_user_url_keeps_hash :
  (forall battletag region extra,
     user_page_url battletag region extra
     = Ret ("https://masteroverwatch.com/profile/pc/" +:+ region +:+ "/"
            +:+ Str.subst_char "#" "-" battletag +:+ extra))
  /\ (forall battletag region,
        blizzard_page_url battletag region
        = Ret ("https://playoverwatch.com/en-gb/career/pc/" +:+ region +:+ "/"
               +:+ Str.subst_char "#" "-" battletag))
  /\ (forall battletag, Str.occurs "#" (Str.subst_char "#" "-" battletag) = false)
  /\ (forall battletag reg,
        update_url battletag reg
        = Ret ("https://masteroverwatch.com/profile/pc/" +:+ reg +:+ "/"
               +:+ battletag +:+ "/update"))
  /\ (forall w s,
        fetches (trace (update_user w "Foo#1234" "eu" s))
        = [("https://masteroverwatch.com/profile/pc/eu/Foo#1234/update", 300%N)])
  /\ (forall w s,
        fetches (trace (get_user_page w "Foo#1234" "eu" "" 300 s))
        = [("https://masteroverwatch.com/profile/pc/eu/Foo-1234", 300%N)]).
Proof.
  split; [exact user_page_url_eq |].
  split; [exact blizzard_page_url_eq |].
  split; [intros b; now apply subst_char_removes |].
  split; [exact update_url_eq |].
  split.
  - intros w s. now apply fetches_update_user.
  - intros w s.
    rewrite (get_user_page_run w "Foo#1234" "eu" ""
               "https://masteroverwatch.com/profile/pc/eu/Foo-1234" 300 s
               eq_refl).
    cbn zeta.
    pose proof (fetches_get_page_body w
                  "https://masteroverwatch.com/profile/pc/eu/Foo-1234" 300 s)
      as Hf.
    destruct (get_page_body w _ 300 s) as [[[body|e] s1] t1];
      cbn -[fetches] in Hf |- *.
    + change (fetches (Enter (CallUserPage ?a ?b ?c ?d) :: ?l)) with (fetches l).
      now rewrite !fetches_app, Hf, fetches_leave.
    + exact Hf.
Qed.

(** ** The document loaders on an absent body *)

(** C2 (the code departs from the claim): when the fetch gives no body,
    [get_blizzard_page] returns [None] and the parser is not called, but
    [get_user_page] has no such test: it hands [None] to the parser, and its
    outcome is whatever the parser makes of [None]. *)
Theorem document_loaders_on_absent_body (w : World)
    (battletag reg extra : string) (cache_time : N) (s : Store)
    (probe_url page_url : string) :
  blizzard_page_url battletag reg = Ret probe_url ->
  user_page_url battletag reg extra = Ret page_url ->
  outcome (get_page_body w probe_url 300 s) = Ret None ->
  outcome (get_page_body w page_url cache_time s) = Ret None ->
  let probe := get_blizzard_page w battletag reg s in
  let page := get_user_page w battletag reg extra cache_time s in
  (outcome probe = Ret None /\ parses (trace probe) = [])
  /\ (outcome page = etree_HTML w None /\ parses (trace page) = [None]).
Proof.
  intros Hprobe Hpage Hb Hu. cbn zeta. split.
  - rewrite (get_blizzard_page_run w _ _ _ s Hprobe). cbn zeta. rewrite Hb.
    split; [reflexivity |]. cbn [trace snd].
    change (parses (Enter ?c :: ?l)) with (parses l).
    now rewrite parses_app, parses_get_page_body.
  - rewrite (get_user_page_run w _ _ _ _ _ s Hpage). cbn zeta. rewrite Hu.
    split; [reflexivity |]. cbn [trace snd].
    change (parses (Enter ?c :: ?l)) with (parses l).
    now rewrite !parses_app, parses_get_page_body, parses_leave.
Qed.

Lemma document_loaders_on_absent_body_witness :
  let page := get_user_page world_nowhere "Foo#1234" "eu" "" 300 fresh_store in
  outcome (get_blizzard_page world_nowhere "Foo#1234" "eu" fresh_store) = Ret None
  /\ outcome page = Raise ValueError
  /\ parses (trace page) = [None].
Proof.
  destruct (document_loaders_on_absent_body world_nowhere "Foo#1234" "eu" ""
              300 fresh_store PROBE_EU PROFILE_EU)
    as [[Hb _] [Hu Hp]]; try reflexivity.
  cbn zeta. split; [exact Hb |]. split; [exact Hu | exact Hp].
Defined.

(** ** The pass that reaches the full fetch *)

(** C3 (the code departs from the claim): in a pass whose probe and update
    both go through, the loop ends with that pass, and what [region_helper]
    gives is what the parser makes of the fetched profile page, paired with
    the region.  When the full fetch gives no body this is the parser's
    outcome on [None]: an exception of the parser is the outcome of the
    resolver, and the pair (None, region) comes only from a parser that
    returns [None] for [None]. *)
Theorem resolver_ends_with_full_fetch (w : World)
    (battletag extra reg : string) (rest : list string) (s : Store)
    (page_url : string) (body : option string) :
  let probe := get_blizzard_page w battletag reg s in
  let update := update_user w battletag reg (final probe) in
  let fetch := get_page_body w page_url 300 (final update) in
  user_page_url battletag reg extra = Ret page_url ->
  (exists document, outcome probe = Ret (Some document)) ->
  outcome update = Ret true ->
  outcome fetch = Ret body ->
  outcome (for_else (region_body w battletag extra) (reg :: rest)
             (ret (None, None)) s)
  = Rmap (fun page => (page, Some reg)) (etree_HTML w body).
Proof.
  cbn zeta. intros Hurl [document Hprobe] Hupdate Hfetch.
  cbn [for_else]. rewrite bind_run. unfold region_body at 1 2 3.
  rewrite !bind_run, Hprobe. cbn [outcome final trace fst snd].
  rewrite !bind_run, Hupdate. cbn [outcome final trace fst snd negb].
  rewrite !bind_run, (get_user_page_run w _ _ _ _ _ _ Hurl). cbn zeta.
  rewrite Hfetch. cbn [outcome final trace fst snd].
  now destruct (etree_HTML w body).
Qed.

Lemma resolver_ends_with_full_fetch_witness :
  outcome (region_helper world_profile_down "Foo#1234" (Some "eu") ""
             fresh_store)
  = Raise ValueError.
Proof.
  apply (resolver_ends_with_full_fetch world_profile_down "Foo#1234" "" "eu"
           [] fresh_store PROFILE_EU None).
  - reflexivity.
  - eexists. reflexivity.
  - reflexivity.
  - reflexivity.
Defined.

(** ** The update trigger *)

Lemma player_not_found_true (data : json) :
  player_not_found data = Ret true
  <-> getitem data "status" = Ret (JStr "error")
      /\ getitem data "message" = Ret (JStr NOT_FOUND_MESSAGE).
Proof.
  unfold player_not_found. split.
  - destruct (getitem data "status") as [status|e]; [|discriminate].
    destruct status; cbn; try discriminate.
    destruct (String.eqb_spec s "error") as [->|_]; [|discriminate].
    destruct (getitem data "message") as [message|e]; [|discriminate].
    destruct message; cbn; try discriminate.
    destruct (String.eqb_spec s NOT_FOUND_MESSAGE) as [->|_]; [|discriminate].
    tauto.
  - intros [-> ->]. reflexivity.
Qed.

(** C4 (as amended): for a fetched body that decodes to [data],
    [update_user] returns [False] exactly when the status of [data] is
    ["error"] and its message is the one literal; and when [data] has a
    status and, for the status ["error"], a message, it returns [True] in
    every other case. *)
Theorem update_user_result (w : World) (battletag reg : string) (s : Store)
    (url body : string) (data : json) :
  update_url battletag reg = Ret url ->
  outcome (get_page_body w url 300 s) = Ret (Some body) ->
  json_decode w body = Some data ->
  let result := outcome (update_user w battletag reg s) in
  (result = Ret false
   <-> getitem data "status" = Ret (JStr "error")
       /\ getitem data "message" = Ret (JStr NOT_FOUND_MESSAGE))
  /\ (forall status message,
        getitem data "status" = Ret status ->
        (eq_str status "error" = true -> getitem data "message" = Ret message) ->
        result
        = Ret (negb (eq_str status "error" && eq_str message NOT_FOUND_MESSAGE))).
Proof.
  intros Hurl Hfetch Hdata. cbn zeta.
  rewrite (update_user_outcome w _ _ _ s Hurl), Hfetch.
  unfold json_loads. rewrite Hdata. split.
  - rewrite <- player_not_found_true.
    destruct (player_not_found data) as [[|]|e]; cbn; split; congruence.
  - intros status message Hstatus Hmessage. unfold player_not_found.
    rewrite Hstatus. destruct (eq_str status "error"); [|reflexivity].
    now rewrite Hmessage.
Qed.

Lemma update_user_result_witness :
  outcome (update_user world_rate_limited "Foo#1234" "eu" fresh_store) = Ret true
  /\ outcome (update_user world_not_found "Foo#1234" "eu" fresh_store) = Ret false.
Proof.
  split.
  - destruct (update_user_result world_rate_limited "Foo#1234" "eu" fresh_store
                UPDATE_EU (reply_text "error" "rate limited")
                (reply_data "error" "rate limited")
                eq_refl eq_refl eq_refl) as [_ Hother].
    apply (Hother (JStr "error") (JStr "rate limited")).
    + reflexivity.
    + intros _. reflexivity.
  - destruct (update_user_result world_not_found "Foo#1234" "eu" fresh_store
                UPDATE_EU (reply_text "error" NOT_FOUND_MESSAGE)
                (reply_data "error" NOT_FOUND_MESSAGE)
                eq_refl eq_refl eq_refl) as [[_ Hexact] _].
    apply Hexact. split; reflexivity.
Defined.

(** C4 as it is stated fails on a reply of another shape: the empty object
    is JSON and is not the not-found reply, yet [update_user] does not return
    [True] on it: the subscript ["status"] raises [KeyError]. *)
Lemma update_user_empty_object :
  let w := world_empty_reply in
  outcome (get_page_body w UPDATE_EU 300 fresh_store) = Ret (Some "{}")
  /\ json_decode w "{}" = Some (JDict [])
  /\ outcome (update_user w "Foo#1234" "eu" fresh_store)
     = Raise (KeyError "status")
  /\ outcome (update_user w "Foo#1234" "eu" fresh_store) <> Ret true.
Proof.
  cbn zeta. repeat split; try reflexivity. discriminate.
Qed.

(** C5: when the fetch of the update endpoint gives no body, or a body that
    is not JSON, [update_user] raises: it returns neither [False] nor
    [True]. *)
Theorem update_user_fatal (w : World) (battletag reg : string) (s : Store)
    (url : string) :
  update_url battletag reg = Ret url ->
  let fetch := get_page_body w url 300 s in
  outcome fetch = Ret None
  \/ (exists body, outcome fetch = Ret (Some body) /\ json_decode w body = None) ->
  raised (outcome (update_user w battletag reg s))
  /\ outcome (update_user w battletag reg s) <> Ret false.
Proof.
  intros Hurl. cbn zeta. intros Hfetch.
  rewrite (update_user_outcome w _ _ _ s Hurl).
  destruct Hfetch as [-> | [body [-> Hbody]]]; cbn; rewrite ?Hbody;
    (split; [eexists; reflexivity | discriminate]).
Qed.

Lemma update_user_fatal_witness :
  raised (outcome (update_user world_update_down "Foo#1234" "eu" fresh_store))
  /\ raised (outcome (update_user world_garbled_reply "Foo#1234" "eu"
                        fresh_store)).
Proof.
  split.
  - apply (update_user_fatal world_update_down "Foo#1234" "eu" fresh_store
             UPDATE_EU eq_refl).
    left. reflexivity.
  - apply (update_user_fatal world_garbled_reply "Foo#1234" "eu" fresh_store
             UPDATE_EU eq_refl).
    right. exists "<html>Bad gateway</html>". split; reflexivity.
Defined.

(** ** The resolver *)

Section Resolver.

Context (w : World) (battletag extra : string) (s : Store).

Lemma region_helper_resolution (region : option string) :
  let run := region_helper w battletag region extra s in
  resolution w battletag extra
    match region with
    | None => ["eu"; "us"; "kr"]
    | Some r => [r]
    end
    (steps (trace run)) (outcome run).
Proof. apply for_else_resolution. Qed.

(** C6: with a region given, [region_helper] probes that region and no
    other.  With none, the regions probed are eu, us, kr in this order, up to
    some point: a region that passed the probe and the update is the last one
    probed; every region probed before the last one was skipped at the probe
    or at the update; the loop does not stop at a skipped region before kr;
    and a run that returns has stopped at a region that passed both, or has
    seen all three skipped. *)
Theorem region_helper_probe_order :
  (forall region,
     probes (trace (region_helper w battletag (Some region) extra s)) = [region])
  /\ (let run := region_helper w battletag None extra s in
      let tr := trace run in
      (probes tr = ["eu"] \/ probes tr = ["eu"; "us"]
       \/ probes tr = ["eu"; "us"; "kr"])
      /\ (forall reg, passed battletag reg tr -> last (probes tr) = Some reg)
      /\ (forall reg, In reg (probes tr) -> last (probes tr) <> Some reg ->
                      skipped battletag reg tr)
      /\ (forall reg, last (probes tr) = Some reg ->
                      skipped battletag reg tr -> reg = "kr")
      /\ (forall v, outcome run = Ret v ->
            (exists reg, last (probes tr) = Some reg /\ passed battletag reg tr)
            \/ (v = (None, None)
                /\ forall reg, In reg ["eu"; "us"; "kr"] ->
                               skipped battletag reg tr))).
Proof.
  split.
  - intros region. rewrite <- probes_steps.
    exact (explicit_resolution _ _ _ _ _ _
             (region_helper_resolution (Some region))).
  - cbn zeta.
    pose proof (default_resolution _ _ _ _ _ (region_helper_resolution None))
      as H.
    cbn zeta in H. rewrite probes_steps in H.
    destruct H as (Hprefix & Hpass & Hskip & Hlast & Hret).
    split; [exact Hprefix |].
    split; [intros reg Hreg; apply Hpass; now apply passed_steps |].
    split; [intros reg Hin Hne; apply skipped_steps; now apply Hskip |].
    split; [intros reg Hl Hsk; apply (Hlast reg Hl); now apply skipped_steps |].
    intros v Hv. destruct (Hret v Hv) as [[reg [Hl Hp]] | [Hnone Hall]].
    + left. exists reg. split; [exact Hl | now apply passed_steps].
    + right. split; [exact Hnone |].
      intros reg Hin. apply skipped_steps. now apply Hall.
Qed.

(** C7: with no region given, when each of eu, us and kr was skipped at the
    probe or at the update, [region_helper] returns (None, None); and when
    the probe came back absent for all three, it has made three probes and
    no update. *)
Theorem region_helper_exhausted :
  let run := region_helper w battletag None extra s in
  (forall reg, In reg ["eu"; "us"; "kr"] -> skipped battletag reg (trace run)) ->
  outcome run = Ret (None, None)
  /\ ((forall reg, In reg ["eu"; "us"; "kr"] ->
                   probe_absent battletag reg (trace run)) ->
      length (probes (trace run)) = 3 /\ length (updates (trace run)) = 0).
Proof.
  cbn zeta. intros Hall.
  destruct (exhausted_resolution _ _ _ _ _ (region_helper_resolution None))
    as [Hret Hcount].
  - intros reg Hin. apply skipped_steps. now apply Hall.
  - split; [exact Hret |]. intros Habs.
    destruct Hcount as [Hp Hu].
    + intros reg Hin. apply probe_absent_steps. now apply Habs.
    + rewrite probes_steps in Hp. rewrite updates_steps in Hu.
      now rewrite Hp, Hu.
Qed.

(** C8: in a run of [region_helper], a region whose update step returned
    [False] gets no call of [get_user_page], and a region whose update step
    returned [True] gets one, with the extra of the call and the default
    cache time.  The update step of a reply with the status ["error"]
    returns [False] for the one literal message and [True] for any other. *)
Theorem full_fetch_follows_update (region : option string) (reg : string) :
  let tr := trace (region_helper w battletag region extra s) in
  (update_not_found battletag reg tr -> ~ In reg (full_fetches tr))
  /\ (update_accepted battletag reg tr ->
      In (Enter (CallUserPage battletag reg extra 300)) tr)
  /\ (forall s' url body data message,
        update_url battletag reg = Ret url ->
        outcome (get_page_body w url 300 s') = Ret (Some body) ->
        json_decode w body = Some data ->
        getitem data "status" = Ret (JStr "error") ->
        getitem data "message" = Ret (JStr message) ->
        outcome (update_user w battletag reg s')
        = Ret (negb (String.eqb message NOT_FOUND_MESSAGE))).
Proof.
  cbn zeta.
  assert (Hshape :
    (update_not_found battletag reg
       (steps (trace (region_helper w battletag region extra s))) ->
     ~ In reg (full_fetches
                 (steps (trace (region_helper w battletag region extra s)))))
    /\ (In (Leave (CallUpdateUser battletag reg) true)
           (steps (trace (region_helper w battletag region extra s))) ->
        In (Enter (CallUserPage battletag reg extra 300))
           (steps (trace (region_helper w battletag region extra s))))).
  { pose proof (region_helper_resolution region) as Hres. cbn zeta in Hres.
    eapply not_found_resolution; [|exact Hres].
    destruct region; eauto. }
  destruct Hshape as [Hnf Hacc].
  rewrite full_fetches_steps in Hnf.
  split; [intros H; apply Hnf; now apply update_not_found_steps |].
  split.
  - intros H.
    apply (in_steps (Enter (CallUserPage battletag reg extra 300)) _ eq_refl).
    apply Hacc.
    now apply (in_steps (Leave (CallUpdateUser battletag reg) true) _ eq_refl).
  - intros s' url body data message Hurl Hfetch Hdata Hstatus Hmessage.
    rewrite (update_user_outcome w _ _ _ s' Hurl), Hfetch.
    unfold json_loads, player_not_found.
    now rewrite Hdata, Hstatus, Hmessage.
Qed.

End Resolver.

(** Finding an event in the trace of a run that has been worked out. *)
Ltac found := vm_compute; repeat (first [left; reflexivity | right]).

Lemma region_helper_exhausted_witness :
  let run := region_helper world_nowhere "Foo#1234" None "" fresh_store in
  outcome run = Ret (None, None)
  /\ length (probes (trace run)) = 3
  /\ length (updates (trace run)) = 0.
Proof.
  cbn zeta.
  assert (Habsent : forall reg, In reg ["eu"; "us"; "kr"] ->
            probe_absent "Foo#1234" reg
              (trace (region_helper world_nowhere "Foo#1234" None ""
                        fresh_store))).
  { intros reg [<-|[<-|[<-|[]]]]; unfold probe_absent; found. }
  destruct (region_helper_exhausted world_nowhere "Foo#1234" "" fresh_store)
    as [Hret Hcount].
  - intros reg Hin. left. now apply Habsent.
  - split; [exact Hret | exact (Hcount Habsent)].
Defined.

Lemma full_fetch_follows_update_witness :
  let refused :=
    trace (region_helper world_not_found "Foo#1234" (Some "eu") "" fresh_store) in
  let accepted :=
    trace (region_helper world_rate_limited "Foo#1234" (Some "eu") ""
             fresh_store) in
  ~ In "eu" (full_fetches refused)
  /\ In (Enter (CallUserPage "Foo#1234" "eu" "" 300)) accepted.
Proof.
  cbn zeta.
  pose proof (full_fetch_follows_update world_not_found "Foo#1234" ""
                fresh_store (Some "eu") "eu") as Hrefused.
  pose proof (full_fetch_follows_update world_rate_limited "Foo#1234" ""
                fresh_store (Some "eu") "eu") as Haccepted.
  cbn zeta in Hrefused, Haccepted.
  destruct Hrefused as (Hrefused & _ & _).
  destruct Haccepted as (_ & Haccepted & _).
  split.
  - apply Hrefused. unfold update_not_found. found.
  - apply Haccepted. unfold update_accepted. found.
Defined.

(** ** The cache of the specification under [get_page_body] *)

Lemma cached_later (s s' : Store) (url : string) :
  cached s url = None ->
  cache s' = cache s ->
  (now s <= now s')%N ->
  cached s' url = None.
Proof.
  unfold cached, live. intros Hc -> Hle.
  destruct (cache s !! url) as [e|]; [|reflexivity].
  destruct (N.ltb_spec (now s) (ce_expires_at e)); [discriminate |].
  destruct (N.ltb_spec (now s') (ce_expires_at e)); [lia | reflexivity].
Qed.

Lemma real_get_body_run (w : World) (url : string) (s : Store) :
  let s' :=
    {| cache := cache s;
       now := (now s + latency w (requests s))%N;
       requests := S (requests s) |} in
  _real_get_body w url s
  = (match session_get w (requests s) url with
     | Response status body =>
         Ret (if (status =? 200)%Z then Some body else None)
     | TransportError => Raise ClientError
     end, s', [LogGet url; HttpGet url]).
Proof.
  cbn zeta. unfold _real_get_body.
  now destruct (session_get w (requests s) url).
Qed.

(** A fetch that finds no live entry goes to the network, once. *)
Lemma http_gets_miss (w : World) (url : string) (cache_time : N) (s : Store) :
  with_cache w = spec_with_cache ->
  cached s url = None ->
  http_gets (trace (get_page_body w url cache_time s)) = [url].
Proof.
  intros Hwc Hmiss. rewrite get_page_body_run, Hwc.
  unfold spec_with_cache. rewrite Hmiss, real_get_body_run. cbn zeta.
  destruct (session_get w (requests s) url) as [status body|];
    [destruct (status =? 200)%Z |]; reflexivity.
Qed.

(** A fetch served from the cache does not. *)
Lemma http_gets_hit (w : World) (url body : string) (cache_time : N)
    (s : Store) :
  with_cache w = spec_with_cache ->
  cached s url = Some body ->
  get_page_body w url cache_time s
  = (Ret (Some body), s,
     [Enter (CallPageBody url cache_time);
      Leave (CallPageBody url cache_time) true]).
Proof.
  intros Hwc Hhit. rewrite get_page_body_run, Hwc.
  unfold spec_with_cache. now rewrite Hhit.
Qed.

(** C9: under the cache of the specification, a fetch that goes to the
    network and gets a status other than 200, or a transport failure, returns
    [None] and leaves the cache as it was; the next fetch of the same URL,
    whatever the time passed and the cache time asked for, goes to the
    network again. *)
Theorem failed_fetch_not_cached (w : World) (url : string) (cache_time : N)
    (s : Store) :
  with_cache w = spec_with_cache ->
  let run := get_page_body w url cache_time s in
  In url (http_gets (trace run)) ->
  (forall body, session_get w (requests s) url <> Response 200 body) ->
  outcome run = Ret None
  /\ cache (final run) = cache s
  /\ forall (elapsed next_cache_time : N),
       http_gets (trace (get_page_body w url next_cache_time
                           (advance elapsed (final run))))
       = [url].
Proof.
  intros Hwc. cbn zeta. intros Hget Hfail.
  destruct (cached s url) as [body|] eqn:Hcached.
  - rewrite (http_gets_hit w url body cache_time s Hwc Hcached) in Hget.
    destruct Hget.
  - clear Hget.
    assert (Hrun : outcome (get_page_body w url cache_time s) = Ret None
                   /\ cache (final (get_page_body w url cache_time s)) = cache s
                   /\ (now s <= now (final (get_page_body w url cache_time s)))%N).
    { rewrite get_page_body_run, Hwc. unfold spec_with_cache.
      rewrite Hcached, real_get_body_run. cbn zeta.
      destruct (session_get w (requests s) url) as [status body|].
      - destruct (Z.eqb_spec status 200) as [->|_].
        + now destruct (Hfail body).
        + cbn. repeat split. lia.
      - cbn. repeat split. lia. }
    destruct Hrun as (Hret & Hcache & Hnow).
    split; [exact Hret |]. split; [exact Hcache |].
    intros elapsed next_cache_time. apply http_gets_miss; [exact Hwc |].
    apply (cached_later s); [exact Hcached | exact Hcache |].
    cbn. lia.
Qed.

Lemma failed_fetch_not_cached_witness :
  let missing :=
    get_page_body world_nowhere PROBE_EU 300 fresh_store in
  let failing :=
    get_page_body world_update_down UPDATE_EU 300 fresh_store in
  (outcome missing = Ret None /\ cache (final missing) = ∅)
  /\ (outcome failing = Ret None /\ cache (final failing) = ∅).
Proof.
  cbn zeta. split.
  - destruct (failed_fetch_not_cached world_nowhere PROBE_EU 300 fresh_store
                eq_refl) as (Hret & Hcache & _).
    + found.
    + intros body. discriminate.
    + split; [exact Hret | exact Hcache].
  - destruct (failed_fetch_not_cached world_update_down UPDATE_EU 300
                fresh_store eq_refl) as (Hret & Hcache & _).
    + found.
    + intros body. discriminate.
    + split; [exact Hret | exact Hcache].
Defined.

(** ** The cache time of the existence probe *)

Lemma final_get_blizzard_page (w : World) (battletag reg url : string)
    (s : Store) :
  blizzard_page_url battletag reg = Ret url ->
  final (get_blizzard_page w battletag reg s)
  = final (get_page_body w url 300 s).
Proof.
  intros Hurl. rewrite (get_blizzard_page_run w _ _ _ s Hurl). cbn zeta.
  now destruct (outcome (get_page_body w url 300 s)) as [[body|]|e].
Qed.

Lemma fetches_get_blizzard_page (w : World) (battletag reg url : string)
    (s : Store) :
  blizzard_page_url battletag reg = Ret url ->
  fetches (trace (get_blizzard_page w battletag reg s)) = [(url, 300%N)].
Proof.
  intros Hurl. rewrite (get_blizzard_page_run w _ _ _ s Hurl). cbn zeta.
  pose proof (fetches_get_page_body w url 300 s) as Hf.
  destruct (outcome (get_page_body w url 300 s)) as [[body|]|e];
    cbn [trace snd];
    change (fetches (Enter (CallBlizzardPage battletag reg) :: ?l))
      with (fetches l);
    rewrite ?fetches_app, ?fetches_leave, Hf; reflexivity.
Qed.

(** What a fetch that goes to the network and gets a 200 leaves in the cache
    of the specification. *)
Lemma stored_after_fetch (w : World) (url body : string) (cache_time : N)
    (s : Store) :
  with_cache w = spec_with_cache ->
  cached s url = None ->
  session_get w (requests s) url = Response 200 body ->
  let run := get_page_body w url cache_time s in
  outcome run = Ret (Some body)
  /\ cache (final run) !! url
     = Some {| ce_body := body;
               ce_expires_at := (now (final run) + cache_time)%N |}.
Proof.
  intros Hwc Hmiss Hget. cbn zeta. rewrite get_page_body_run, Hwc.
  unfold spec_with_cache. rewrite Hmiss, real_get_body_run. cbn zeta.
  rewrite Hget. cbn. split; [reflexivity |]. apply lookup_insert_eq.
Qed.

Lemma cached_while_live (s : Store) (url body : string) (ttl elapsed : N) :
  cache s !! url = Some {| ce_body := body; ce_expires_at := (now s + ttl)%N |} ->
  cached (advance elapsed s) url
  = if (elapsed <? ttl)%N then Some body else None.
Proof.
  intros Hentry. unfold cached, advance, live. cbn. rewrite Hentry. cbn.
  destruct (N.ltb_spec (now s + elapsed) (now s + ttl));
    destruct (N.ltb_spec elapsed ttl); try reflexivity; lia.
Qed.

(** C10: the [cache_time=0] of [get_blizzard_page] is a keyword argument of
    [format] that no field of the template names: whatever its value, the
    URL is the one built without it.  The page is fetched by [get_page_body]
    with the cache time 300, and under the cache of the specification a body
    fetched from the network is served from the cache for the 300 seconds
    that follow, and no longer. *)
Theorem blizzard_probe_cache_time (w : World) (battletag reg : string)
    (s : Store) :
  let url :=
    "https://playoverwatch.com/en-gb/career/pc/" +:+ reg +:+ "/"
    +:+ Str.subst_char "#" "-" battletag in
  let run := get_blizzard_page w battletag reg s in
  (forall unused,
     Str.format B_PAGE_URL []
       [("region", Str.PStr reg);
        ("btag", Str.PStr (Str.replace battletag "#" "-"));
        ("cache_time", unused)]
     = Str.format B_PAGE_URL []
         [("region", Str.PStr reg);
          ("btag", Str.PStr (Str.replace battletag "#" "-"))])
  /\ blizzard_page_url battletag reg = Ret url
  /\ fetches (trace run) = [(url, 300%N)]
  /\ (with_cache w = spec_with_cache ->
      cached s url = None ->
      forall body,
        session_get w (requests s) url = Response 200 body ->
        cache (final run) !! url
        = Some {| ce_body := body;
                  ce_expires_at := (now (final run) + 300)%N |}
        /\ forall elapsed,
             cached (advance elapsed (final run)) url
             = if (elapsed <? 300)%N then Some body else None).
Proof.
  cbn zeta. split; [intros unused; reflexivity |].
  split; [apply blizzard_page_url_eq |].
  split; [apply fetches_get_blizzard_page, blizzard_page_url_eq |].
  intros Hwc Hmiss body Hget.
  rewrite (final_get_blizzard_page w _ _ _ s (blizzard_page_url_eq _ _)).
  destruct (stored_after_fetch w _ body 300 s Hwc Hmiss Hget) as [_ Hentry].
  split; [exact Hentry |].
  intros elapsed. now apply cached_while_live.
Qed.

Lemma blizzard_probe_cache_time_witness :
  let run := get_blizzard_page world_found "Foo#1234" "eu" fresh_store in
  fetches (trace run) = [(PROBE_EU, 300%N)]
  /\ cache (final run) !! PROBE_EU
     = Some {| ce_body := "<html>career</html>"; ce_expires_at := 301 |}
  /\ cached (advance 299 (final run)) PROBE_EU = Some "<html>career</html>"
  /\ cached (advance 300 (final run)) PROBE_EU = None.
Proof.
  cbn zeta.
  destruct (blizzard_probe_cache_time world_found "Foo#1234" "eu" fresh_store)
    as (_ & _ & Hfetch & Hcache).
  destruct (Hcache eq_refl eq_refl "<html>career</html>" eq_refl)
    as [Hentry Hlive].
  split; [exact Hfetch |]. split; [exact Hentry |].
  split; [exact (Hlive 299%N) | exact (Hlive 300%N)].
Defined.

(** * Further properties *)

(** ** Battletags and URLs *)

Lemma subst_char_idempotent (old new : ascii) (s : string) :
  old <> new ->
  Str.subst_char old new (Str.subst_char old new s) = Str.subst_char old new s.
Proof.
  intros Hne. induction s as [|c s IH]; [reflexivity |].
  cbn [Str.subst_char]. rewrite IH. f_equal.
  destruct (Ascii.eqb_spec c old) as [->|Hc].
  - destruct (Ascii.eqb_spec new old) as [Heq|_]; [congruence | reflexivity].
  - destruct (Ascii.eqb_spec c old) as [Heq|_]; [contradiction | reflexivity].
Qed.

Lemma subst_char_absent (old new : ascii) (s : string) :
  Str.occurs old s = false -> Str.subst_char old new s = s.
Proof.
  induction s as [|c s IH]; [reflexivity |].
  cbn [Str.occurs Str.subst_char]. intros H.
  apply orb_false_elim in H as [Hc Hs]. now rewrite Hc, IH.
Qed.

Lemma subst_char_present (old new : ascii) (s t : string) :
  old <> new ->
  Str.occurs old s = true ->
  Str.subst_char old new s +:+ t <> s +:+ t.
Proof.
  intros Hne. induction s as [|c s IH]; [discriminate |].
  cbn [Str.occurs Str.subst_char]. intros H Heq.
  cbn [append] in Heq. injection Heq as Hc Hs.
  destruct (Ascii.eqb_spec c old) as [->|_].
  - congruence.
  - cbn in H. now apply IH.
Qed.

(** The profile page and the existence page of a battletag are those of the
    battletag written with dashes: a caller may pass either form. *)
Theorem dashed_battletag_same_pages (battletag region extra : string) :
  let dashed := Str.replace battletag "#" "-" in
  user_page_url dashed region extra = user_page_url battletag region extra
  /\ blizzard_page_url dashed region = blizzard_page_url battletag region
  /\ (Str.occurs "#" battletag = false -> dashed = battletag).
Proof.
  cbn zeta. rewrite !user_page_url_eq, !blizzard_page_url_eq, !replace_hash.
  rewrite subst_char_idempotent by discriminate.
  repeat split. apply subst_char_absent.
Qed.

(** [update_user] asks for the update of the profile page that
    [get_user_page] reads (the URL of the page followed by /update) exactly
    when the battletag has no [#] in it. *)
Theorem update_url_is_page_update (battletag reg : string) :
  update_url battletag reg = user_page_url battletag reg "/update"
  <-> Str.occurs "#" battletag = false.
Proof.
  rewrite update_url_eq, user_page_url_eq. split.
  - intros Heq. destruct (Str.occurs "#" battletag) eqn:Hocc; [|reflexivity].
    exfalso. injection Heq as Heq.
    apply String.app_inj in Heq. injection Heq as Heq.
    symmetry in Heq. revert Heq. apply subst_char_present; [discriminate | exact Hocc].
  - intros Hocc. now rewrite (subst_char_absent _ _ _ Hocc).
Qed.

(** ** What the resolver returns *)

Lemma returned_resolution (w : World) (battletag extra : string)
    (l : list string) (st : list Event) (r : Result (Resolution w)) :
  l = ["eu"; "us"; "kr"] \/ (exists region, l = [region]) ->
  resolution w battletag extra l st r ->
  forall page region,
    r = Ret (page, region) ->
    match region with
    | None => page = None /\ forall reg, In reg l -> skipped battletag reg st
    | Some reg =>
        In reg l
        /\ passed battletag reg st
        /\ last (probes st) = Some reg
        /\ In (Leave (CallUserPage battletag reg extra 300) (not_none page)) st
    end.
Proof.
  intros [->|[region ->]] H; passes.
  all: intros page0 region0 Hr; try discriminate Hr.
  all: injection Hr as <- <-.
  all: try (split; [reflexivity | intros reg; events]; fail).
  all: repeat split; cbn; tauto.
Qed.

Lemma explicit_skipped_resolution (w : World) (battletag extra region : string)
    (st : list Event) (r : Result (Resolution w)) :
  resolution w battletag extra [region] st r ->
  skipped battletag region st ->
  r = Ret (None, None).
Proof.
  intros H Hsk. passes; try reflexivity; skip_cases Hsk.
Qed.

Lemma candidates_shape (region : option string) :
  candidates region = ["eu"; "us"; "kr"]
  \/ (exists r, candidates region = [r]).
Proof. destruct region; eauto. Qed.

(** [region_helper] returns (None, None) exactly when every region it had
    to go through was skipped, at the probe or at the update: a region that
    passed both never gives (None, None), whatever became of its page. *)
Theorem region_helper_none_iff_skipped (w : World) (battletag : string)
    (region : option string) (extra : string) (s : Store) :
  let run := region_helper w battletag region extra s in
  outcome run = Ret (None, None)
  <-> forall reg, In reg (candidates region) ->
                  skipped battletag reg (trace run).
Proof.
  cbn zeta.
  pose proof (region_helper_resolution w battletag extra s region) as Hres.
  cbn zeta in Hres. split.
  - intros Hret reg Hin. apply skipped_steps.
    pose proof (returned_resolution w battletag extra _ _ _
                  (candidates_shape region) Hres None None Hret) as [_ Hall].
    now apply Hall.
  - intros Hall. destruct region as [r|].
    + apply (explicit_skipped_resolution w battletag extra r _ _ Hres).
      apply skipped_steps. apply Hall. now left.
    + apply (exhausted_resolution w battletag extra _ _ Hres).
      intros reg Hin. apply skipped_steps. now apply Hall.
Qed.



(** ** How many calls the resolver makes *)

Lemma budget_resolution (w : World) (battletag extra : string)
    (l : list string) (st : list Event) (r : Result (Resolution w)) :
  l = ["eu"; "us"; "kr"] \/ (exists region, l = [region]) ->
  resolution w battletag extra l st r ->
  (full_fetches st = []
   \/ exists reg, full_fetches st = [reg]
                  /\ last (probes st) = Some reg
                  /\ last (updates st) = Some reg)
  /\ length (updates st) <= length (probes st) <= length l
  /\ (forall reg, In reg (updates st) -> In reg (probes st)).
Proof.
  intros [->|[region ->]] H; passes.
  all: split; [cbn; first [left; reflexivity | right; eexists; repeat split] |].
  all: split; [cbn; lia | cbn; tauto].
Qed.

(** In a run of [region_helper] there is at most one call of
    [get_user_page], and it is for the region probed last and updated last;
    a region is updated only after it has been probed, so that there are no
    more updates than probes, and no more probes than regions to go
    through. *)
Theorem resolver_call_budget (w : World) (battletag : string)
    (region : option string) (extra : string) (s : Store) :
  let tr := trace (region_helper w battletag region extra s) in
  (full_fetches tr = []
   \/ exists reg, full_fetches tr = [reg]
                  /\ last (probes tr) = Some reg
                  /\ last (updates tr) = Some reg)
  /\ length (updates tr) <= length (probes tr) <= length (candidates region)
  /\ (forall reg, In reg (updates tr) -> In reg (probes tr)).
Proof.
  cbn zeta.
  pose proof (region_helper_resolution w battletag extra s region) as Hres.
  cbn zeta in Hres.
  pose proof (budget_resolution w battletag extra _ _ _
                (candidates_shape region) Hres) as H.
  now rewrite full_fetches_steps, probes_steps, updates_steps in H.
Qed.

(** ** The pages the resolver fetches *)

Lemma fetches_get_user_page (w : World) (battletag reg extra url : string)
    (cache_time : N) (s : Store) :
  user_page_url battletag reg extra = Ret url ->
  fetches (trace (get_user_page w battletag reg extra cache_time s))
  = [(url, cache_time)].
Proof.
  intros Hurl. rewrite (get_user_page_run w _ _ _ _ _ s Hurl). cbn zeta.
  pose proof (fetches_get_page_body w url cache_time s) as Hf.
  destruct (outcome (get_page_body w url cache_time s)) as [body|e];
    cbn [trace snd];
    change (fetches (Enter (CallUserPage battletag reg extra cache_time) :: ?l))
      with (fetches l);
    rewrite ?fetches_app, ?fetches_leave, Hf; reflexivity.
Qed.

Lemma fetches_region_body (w : World) (battletag extra reg : string)
    (s : Store) :
  let tr := trace (region_body w battletag extra reg s) in
  length (fetches tr) <= 3
  /\ Forall (pass_fetch battletag extra reg) (fetches tr).
Proof.
  cbn zeta.
  assert (Hp : forall s', Forall (pass_fetch battletag extra reg)
                 (fetches (trace (get_blizzard_page w battletag reg s')))
               /\ length (fetches (trace (get_blizzard_page w battletag reg s')))
                  = 1).
  { intros s'.
    rewrite (fetches_get_blizzard_page w _ _ _ s' (blizzard_page_url_eq _ _)).
    split; [|reflexivity]. constructor; [|constructor].
    split; [reflexivity |]. unfold pass_urls. cbn [fst In]. left. apply blizzard_page_url_eq. }
  assert (Hu : forall s', Forall (pass_fetch battletag extra reg)
                 (fetches (trace (update_user w battletag reg s')))
               /\ length (fetches (trace (update_user w battletag reg s'))) = 1).
  { intros s'.
    rewrite (fetches_update_user w _ _ _ s' (update_url_eq _ _)).
    split; [|reflexivity]. constructor; [|constructor].
    split; [reflexivity |]. unfold pass_urls. cbn [fst In]. right. left. apply update_url_eq. }
  assert (Hg : forall s', Forall (pass_fetch battletag extra reg)
                 (fetches (trace (get_user_page w battletag reg extra 300 s')))
               /\ length (fetches (trace (get_user_page w battletag reg extra
                                            300 s'))) = 1).
  { intros s'.
    rewrite (fetches_get_user_page w _ _ _ _ _ s' (user_page_url_eq _ _ _)).
    split; [|reflexivity]. constructor; [|constructor].
    split; [reflexivity |]. unfold pass_urls. cbn [fst In]. right. right. left. apply user_page_url_eq. }
  unfold region_body. rewrite bind_run.
  destruct (Hp s) as [HpF HpL].
  destruct (outcome (get_blizzard_page w battletag reg s)) as [[d|]|e];
    cbn [outcome trace fst snd ret].
  - rewrite bind_run.
    set (s1 := final (get_blizzard_page w battletag reg s)).
    destruct (Hu s1) as [HuF HuL].
    destruct (outcome (update_user w battletag reg s1)) as [[|]|e];
      cbn [outcome trace fst snd ret negb].
    + rewrite bind_run.
      set (s2 := final (update_user w battletag reg s1)).
      destruct (Hg s2) as [HgF HgL].
      destruct (outcome (get_user_page w battletag reg extra 300 s2))
        as [page|e]; cbn [outcome trace fst snd ret];
        rewrite ?app_nil_r, !fetches_app, !length_app, !Forall_app;
        (split; [lia | tauto]).
    + rewrite ?app_nil_r, !fetches_app, !length_app, !Forall_app.
      split; [lia | tauto].
    + rewrite ?app_nil_r, !fetches_app, !length_app, !Forall_app.
      split; [lia | tauto].
  - rewrite ?app_nil_r. split; [lia | exact HpF].
  - split; [lia | exact HpF].
Qed.

Lemma fetches_for_else (w : World) (battletag extra : string)
    (l : list string) (s : Store) :
  let tr :=
    trace (for_else (region_body w battletag extra) l (ret (None, None)) s) in
  length (fetches tr) <= 3 * length l
  /\ Forall (fun f => exists reg, In reg l /\ pass_fetch battletag extra reg f)
       (fetches tr).
Proof.
  cbn zeta. revert s. induction l as [|reg rest IH]; intros s.
  - split; [cbn; lia | constructor].
  - cbn [for_else]. rewrite bind_run.
    destruct (fetches_region_body w battletag extra reg s) as [Hlen Hall].
    assert (Hhere : Forall (fun f => exists r, In r (reg :: rest)
                                     /\ pass_fetch battletag extra r f)
                      (fetches (trace (region_body w battletag extra reg s)))).
    { eapply Forall_impl; [exact Hall |]. intros f Hf. exists reg.
      split; [now left | exact Hf]. }
    destruct (outcome (region_body w battletag extra reg s)) as [[|v]|e];
      cbn [outcome trace fst snd ret].
    + destruct (IH (final (region_body w battletag extra reg s)))
        as [Hlen' Hall'].
      rewrite fetches_app, length_app, Forall_app. cbn [length].
      split; [lia |]. split; [exact Hhere |].
      eapply Forall_impl; [exact Hall' |]. intros f [r [Hin Hf]].
      exists r. split; [now right | exact Hf].
    + rewrite app_nil_r. cbn [length]. split; [lia | exact Hhere].
    + cbn [length]. split; [lia | exact Hhere].
Qed.

(** Every page [region_helper] fetches is the existence page, the update
    endpoint or the profile page of one of the regions it goes through,
    fetched with the cache time 300; there are at most three fetches for each
    of these regions. *)
Theorem resolver_fetches (w : World) (battletag : string)
    (region : option string) (extra : string) (s : Store) :
  let tr := trace (region_helper w battletag region extra s) in
  length (fetches tr) <= 3 * length (candidates region)
  /\ forall url cache_time,
       In (url, cache_time) (fetches tr) ->
       cache_time = 300%N
       /\ exists reg, In reg (candidates region)
                      /\ In (Ret url) (pass_urls battletag extra reg).
Proof.
  cbn zeta.
  destruct (fetches_for_else w battletag extra (candidates region) s)
    as [Hlen Hall].
  split; [exact Hlen |].
  intros url cache_time Hin.
  rewrite Forall_forall in Hall.
  destruct (Hall (url, cache_time)) as [reg [Hreg [Httl Hurl]]].
  - now apply list_elem_of_In.
  - split; [exact Httl |]. exists reg. split; [exact Hreg | exact Hurl].
Qed.

(** ** A failed update ends the resolution *)

Lemma updates_app (t1 t2 : list Event) :
  updates (t1 ++ t2) = updates t1 ++ updates t2.
Proof. apply omap_app. Qed.

(** When the existence probe of a region goes through and the fetch of its
    update endpoint gives no body, [region_helper] ends there with the
    [TypeError] of [json.loads]: the regions that follow are not probed, and
    no profile page is fetched. *)
Theorem failed_update_fetch_aborts (w : World) (battletag extra reg : string)
    (rest : list string) (s : Store) (url : string) :
  let probe := get_blizzard_page w battletag reg s in
  let run :=
    for_else (region_body w battletag extra) (reg :: rest) (ret (None, None)) s in
  update_url battletag reg = Ret url ->
  (exists document, outcome probe = Ret (Some document)) ->
  outcome (get_page_body w url 300 (final probe)) = Ret None ->
  outcome run = Raise TypeError
  /\ probes (trace run) = [reg]
  /\ updates (trace run) = [reg]
  /\ full_fetches (trace run) = [].
Proof.
  cbn zeta. intros Hurl [document Hprobe] Hfetch.
  assert (Hupdate :
    outcome (update_user w battletag reg
               (final (get_blizzard_page w battletag reg s)))
    = Raise TypeError).
  { now rewrite (update_user_outcome w _ _ _ _ Hurl), Hfetch. }
  pose proof (steps_get_blizzard_page w battletag reg s) as HP.
  pose proof (steps_update_user w battletag reg
                (final (get_blizzard_page w battletag reg s))) as HU.
  rewrite Hprobe in HP. rewrite Hupdate in HU.
  assert (Hbody :
    outcome (region_body w battletag extra reg s) = Raise TypeError
    /\ steps (trace (region_body w battletag extra reg s))
       = [Enter (CallBlizzardPage battletag reg);
          Leave (CallBlizzardPage battletag reg) true;
          Enter (CallUpdateUser battletag reg)]).
  { unfold region_body. rewrite !bind_run, Hprobe.
    cbn [outcome final trace fst snd].
    rewrite !bind_run, Hupdate. cbn [outcome final trace fst snd].
    split; [reflexivity |]. now rewrite steps_app, HP, HU. }
  destruct Hbody as [Hraise Hsteps].
  cbn [for_else]. rewrite bind_run, Hraise. cbn [outcome final trace fst snd].
  split; [reflexivity |].
  rewrite <- probes_steps, <- updates_steps, <- full_fetches_steps, Hsteps.
  repeat split.
Qed.

Lemma failed_update_fetch_aborts_witness :
  let run := region_helper world_update_down "Foo#1234" None "" fresh_store in
  outcome run = Raise TypeError /\ probes (trace run) = ["eu"].
Proof.
  cbn zeta.
  destruct (failed_update_fetch_aborts world_update_down "Foo#1234" "" "eu"
              ["us"; "kr"] fresh_store UPDATE_EU)
    as (Hret & Hprobes & _).
  - reflexivity.
  - eexists. reflexivity.
  - reflexivity.
  - split; [exact Hret | exact Hprobes].
Defined.

(** ** The log line of the update *)

Lemma logged_app (t1 t2 : list Event) : logged (t1 ++ t2) = logged t1 ++ logged t2.
Proof. apply omap_app. Qed.

Lemma logged_net (t : list NetEvent) : logged (map Net t) = [].
Proof. induction t as [|e t IH]; [reflexivity | exact IH]. Qed.

Lemma logged_get_page_body (w : World) (url : string) (cache_time : N)
    (s : Store) :
  logged (trace (get_page_body w url cache_time s)) = [].
Proof.
  rewrite get_page_body_run.
  destruct (with_cache w (_real_get_body w) url cache_time s) as [[r s'] t].
  cbn [trace snd]. change (logged (Enter ?c :: ?l)) with (logged l).
  rewrite logged_app, logged_net. now destruct r.
Qed.

(** [update_user] writes its log line exactly when it returns [True], once,
    with the battletag it was given and the decoded body; a refused update
    and an exception leave no line. *)
Theorem update_user_logs_when_updated (w : World) (battletag reg : string)
    (s : Store) :
  let run := update_user w battletag reg s in
  (outcome run = Ret true ->
   exists url body data,
     update_url battletag reg = Ret url
     /\ outcome (get_page_body w url 300 s) = Ret (Some body)
     /\ json_decode w body = Some data
     /\ logged (trace run) = [(battletag, data)])
  /\ (outcome run <> Ret true -> logged (trace run) = []).
Proof.
  cbn zeta. unfold update_user, traced, bind, eval, emit, ret.
  rewrite update_url_eq.
  set (url := "https://masteroverwatch.com/profile/pc/" +:+ reg +:+ "/"
              +:+ battletag +:+ "/update").
  pose proof (logged_get_page_body w url 300 s) as Hquiet.
  destruct (get_page_body w url 300 s) as [[[body|e] s1] t1] eqn:Hrun;
    cbn -[logged] in Hquiet |- *.
  - destruct body as [body|]; cbn -[logged].
    + destruct (json_decode w body) as [data|] eqn:Hdata; cbn -[logged].
      * destruct (player_not_found data) as [[|]|e]; cbn -[logged];
          change (logged (Enter ?c :: ?l)) with (logged l);
          rewrite ?logged_app, ?Hquiet; cbn; split; try congruence.
        intros _. exists url, body, data.
        split; [apply update_url_eq |]. split; [now rewrite Hrun |].
        split; [exact Hdata | reflexivity].
      * change (logged (Enter ?c :: ?l)) with (logged l).
        rewrite ?logged_app, ?Hquiet. cbn. split; congruence.
    + change (logged (Enter ?c :: ?l)) with (logged l).
      rewrite ?logged_app, ?Hquiet. cbn. split; congruence.
  - change (logged (Enter ?c :: ?l)) with (logged l).
    rewrite ?logged_app, ?Hquiet. cbn. split; congruence.
Qed.

(** ** The document of a fetched body *)

(** When the fetch gives a body, both loaders hand this body, and nothing
    else, to the parser, once, and give back what the parser gives: its
    document or its exception. *)
Theorem loaders_parse_fetched_body (w : World) (battletag reg extra : string)
    (cache_time : N) (s : Store) (probe_url page_url : string)
    (probe_body page_body : string) :
  blizzard_page_url battletag reg = Ret probe_url ->
  user_page_url battletag reg extra = Ret page_url ->
  outcome (get_page_body w probe_url 300 s) = Ret (Some probe_body) ->
  outcome (get_page_body w page_url cache_time s) = Ret (Some page_body) ->
  let probe := get_blizzard_page w battletag reg s in
  let page := get_user_page w battletag reg extra cache_time s in
  (outcome probe = etree_HTML w (Some probe_body)
   /\ parses (trace probe) = [Some probe_body])
  /\ (outcome page = etree_HTML w (Some page_body)
      /\ parses (trace page) = [Some page_body]).
Proof.
  intros Hprobe Hpage Hb Hu. cbn zeta. split.
  - rewrite (get_blizzard_page_run w _ _ _ s Hprobe). cbn zeta. rewrite Hb.
    split; [reflexivity |]. cbn [trace snd].
    change (parses (Enter ?c :: ?l)) with (parses l).
    now rewrite !parses_app, parses_get_page_body, parses_leave.
  - rewrite (get_user_page_run w _ _ _ _ _ s Hpage). cbn zeta. rewrite Hu.
    split; [reflexivity |]. cbn [trace snd].
    change (parses (Enter ?c :: ?l)) with (parses l).
    now rewrite !parses_app, parses_get_page_body, parses_leave.
Qed.

Lemma loaders_parse_fetched_body_witness :
  outcome (get_blizzard_page world_found "Foo#1234" "eu" fresh_store)
  = Ret (Some "<html>career</html>")
  /\ parses (trace (get_user_page world_found "Foo#1234" "eu" "" 300
                      fresh_store))
     = [Some "<html>profile</html>"].
Proof.
  destruct (loaders_parse_fetched_body world_found "Foo#1234" "eu" "" 300
              fresh_store PROBE_EU PROFILE_EU "<html>career</html>"
              "<html>profile</html>" eq_refl eq_refl eq_refl eq_refl)
    as [[Hb _] [_ Hp]].
  split; [exact Hb | exact Hp].
Defined.
